(** * cert-exporter: the periodic Secret / ConfigMap checkers and the
      ConfigMap exporter

    A shallow embedding of

      - src/checkers/periodicSecretChecker.go
      - src/checkers/periodicConfigMapChecker.go
      - src/exporters/configMapExporter.go

    Go maps are stdpp [gmap]s, [[]byte] is [list byte], a Go [(T, error)]
    result is a pair with an [option error] where the code reads both halves
    and a sum where it reads only one of them.  The loops of [StartChecking]
    are recursive functions that thread the loop variables the way the Go
    code assigns them; effects on the metrics registry go through a small
    state monad. *)

From Stdlib Require Import Strings.String Strings.Ascii Strings.Byte Floats Lia.
From stdpp Require Import gmap strings list fin_maps.

Set Default Proof Using "Type".

(** ** Go base types *)

Abbreviation bytes := (list byte).
Definition error := string.
Definition float64 := float.

(** [filepath.Match] as a function of pattern and name, and the order in
    which a [range] statement visits the entries of a map. *)
Definition MatchFn : Type := string -> string -> bool * option error.
Definition RangeFn : Type := forall A : Type, gmap string A -> list (string * A).

(** [path.Ext]: the suffix beginning at the final dot in the final
    slash-separated element of [path]; empty if there is no dot.  The Go loop
    runs [i] from [len(path)-1] down to [0] while [path[i] != '/']; [n] below
    is [i+1]. *)
Fixpoint path_Ext_from (path : string) (n : nat) : string :=
  match n with
  | O => ""
  | S i =>
      match String.get i path with
      | Some c =>
          if Ascii.eqb c "/" then ""
          else if Ascii.eqb c "." then String.substring i (String.length path - i) path
          else path_Ext_from path i
      | None => ""
      end
  end.

Definition path_Ext (path : string) : string :=
  path_Ext_from path (String.length path).

(** [strings.HasSuffix] and [strings.TrimSuffix]. *)
Definition strings_HasSuffix (s suffix : string) : bool :=
  (String.length suffix <=? String.length s) &&
  String.eqb (String.substring (String.length s - String.length suffix)
                               (String.length suffix) s) suffix.

Definition strings_TrimSuffix (s suffix : string) : string :=
  if strings_HasSuffix s suffix
  then String.substring 0 (String.length s - String.length suffix) s
  else s.

(** ** Cluster objects (the fields of corev1.Secret and corev1.ConfigMap that
    the checkers read) *)

Module Secret.
Record t := {
  Name : string;
  Namespace : string;
  Type_ : string;
  Labels : gmap string string;
  Annotations : gmap string string;
  Data : gmap string bytes
}.
End Secret.

Module ConfigMap.
Record t := {
  Name : string;
  Namespace : string;
  Labels : gmap string string;
  Annotations : gmap string string;
  Data : gmap string string;
  BinaryData : gmap string bytes
}.
End ConfigMap.

(** The part of [kubernetes.Interface] the checkers call.  [SecretsList ns sel]
    is [client.CoreV1().Secrets(ns).List(ctx, ListOptions{LabelSelector: sel})];
    the unfiltered call [ListOptions{}] has the zero selector [""].  The
    cluster is read as one snapshot. *)
Record Client := {
  SecretsList : string -> string -> list Secret.t + error;
  SecretsGet : string -> string -> Secret.t + error;
  ConfigMapsList : string -> string -> list ConfigMap.t + error
}.

(** periodicSecretChecker.go, lines 49-61. *)
Definition getPasswordFromSecret (client : Client)
    (namespace secretName passwordKey : string) : string * option error :=
  match SecretsGet client namespace secretName with
  | inr err => ("", Some err)
  | inl secret =>
      match Secret.Data secret !! passwordKey with
      | None => ("", Some "password not found in secret")
      | Some password => (string_of_list_byte password, None)
      end
  end.

(** ** The loop state

    A checker owns the metric families of its exporter ([sink]), shares the
    error counter [metrics.ErrorTotal], and - as ghost state - records the
    calls it makes on its exporter in the order it makes them. *)

Record World (St Call : Type) := mkWorld {
  sink : St;
  ErrorTotal : nat;
  calls : list Call
}.
Arguments mkWorld {St Call}.
Arguments sink {St Call}.
Arguments ErrorTotal {St Call}.
Arguments calls {St Call}.

Definition M (St Call A : Type) : Type := World St Call -> A * World St Call.

Definition ret {St Call A} (a : A) : M St Call A := fun w => (a, w).

Definition bind {St Call A B} (m : M St Call A) (k : A -> M St Call B) : M St Call B :=
  fun w => let (a, w') := m w in k a w'.

Declare Scope checker_scope.
Delimit Scope checker_scope with checker.
Notation "x <- m ;; k" := (bind m (fun x => k))
  (at level 100, m at next level, right associativity) : checker_scope.
Notation "m ;; k" := (bind m (fun _ => k))
  (at level 100, right associativity) : checker_scope.
Open Scope checker_scope.

(** [metrics.ErrorTotal.Inc()] *)
Definition ErrorTotal_Inc {St Call} : M St Call unit :=
  fun w => (tt, mkWorld (sink w) (Datatypes.S (ErrorTotal w)) (calls w)).

(** ** Loops shared by both checkers

    The two [StartChecking] bodies are the same text up to the resource kind;
    the loops below embed that common text once. *)

(** The glob loops (periodicSecretChecker.go 153-164 and 166-177,
    periodicConfigMapChecker.go 129-140 and 142-153).  [Match] is
    [filepath.Match]; [flag] is the variable ([include] or [exclude]) the loop
    assigns on every iteration. *)
Fixpoint globLoop {St Call} (Match : MatchFn)
    (globs : list string) (name : string) (flag : bool) : M St Call bool :=
  match globs with
  | [] => ret flag
  | glob :: rest =>
      let (matched, err) := Match glob name in
      match err with
      | Some _ => ErrorTotal_Inc ;; globLoop Match rest name matched
      | None => if matched then ret matched else globLoop Match rest name matched
      end
  end.

(** The annotation loop (periodicSecretChecker.go 136-142,
    periodicConfigMapChecker.go 103-109). *)
Fixpoint annotationLoop (selectors : list string)
    (annotations : gmap string string) (matches : bool) : bool :=
  match selectors with
  | [] => matches
  | selector :: rest =>
      match annotations !! selector with
      | Some _ => true
      | None => annotationLoop rest annotations matches
      end
  end.

(** Lines 133-147 resp. 100-114: [false] is the [continue] that skips the
    resource. *)
Definition annotationFilter (annotationSelectors : list string)
    (annotations : gmap string string) : bool :=
  if 0 <? length annotationSelectors
  then annotationLoop annotationSelectors annotations false
  else true.

(** The listing loops (periodicSecretChecker.go 86-110,
    periodicConfigMapChecker.go 70-94); [items] is the slice being appended
    to. *)
Fixpoint selectorLoop {St Call R} (List : string -> string -> list R + error)
    (ns : string) (labelSelectors : list string) (items : list R)
    : M St Call (list R) :=
  match labelSelectors with
  | [] => ret items
  | labelSelector :: rest =>
      match List ns labelSelector with
      | inr _ => ErrorTotal_Inc ;; selectorLoop List ns rest items
      | inl s => selectorLoop List ns rest (items ++ s)
      end
  end.

Fixpoint namespaceLoop {St Call R} (List : string -> string -> list R + error)
    (namespaces labelSelectors : list string) (items : list R)
    : M St Call (list R) :=
  match namespaces with
  | [] => ret items
  | ns :: rest =>
      if 0 <? length labelSelectors then
        items' <- selectorLoop List ns labelSelectors items ;;
        namespaceLoop List rest labelSelectors items'
      else
        match List ns "" with
        | inr _ => ErrorTotal_Inc ;; namespaceLoop List rest labelSelectors items
        | inl s => namespaceLoop List rest labelSelectors (items ++ s)
        end
  end.

(** A [for _, x := range xs] loop whose body is a checker action. *)
Fixpoint forEach {St Call A} (body : A -> M St Call unit) (xs : list A)
    : M St Call unit :=
  match xs with
  | [] => ret tt
  | x :: rest => body x ;; forEach body rest
  end.

(** ** PeriodicSecretChecker (periodicSecretChecker.go) *)

Module PeriodicSecretChecker.

(** The calls the checker makes on [p.exporter], with their arguments. *)
Inductive Call :=
| ResetMetricsCall
| ExportMetricsCall (data : bytes)
    (keyName secretName secretNamespace password : string)
    (labels : gmap string string).

(** [*exporters.SecretExporter]: the two methods the checker calls, acting on
    the metric families the exporter owns. *)
Record Exporter (St : Type) := {
  ExportMetrics : bytes -> string -> string -> string -> string ->
                  gmap string string -> St -> option error * St;
  ResetMetrics : St -> St
}.
Arguments ExportMetrics {St}.
Arguments ResetMetrics {St}.

Record t (St : Type) := {
  period : Z;
  labelSelectors : list string;
  kubeconfigPath : string;
  annotationSelectors : list string;
  namespaces : list string;
  exporter : Exporter St;
  includeSecretsDataGlobs : list string;
  excludeSecretsDataGlobs : list string;
  includeSecretsTypes : list string
}.
Arguments period {St}.
Arguments labelSelectors {St}.
Arguments kubeconfigPath {St}.
Arguments annotationSelectors {St}.
Arguments namespaces {St}.
Arguments exporter {St}.
Arguments includeSecretsDataGlobs {St}.
Arguments excludeSecretsDataGlobs {St}.
Arguments includeSecretsTypes {St}.

Definition callResetMetrics {St} (e : Exporter St) : M St Call unit :=
  fun w => (tt, mkWorld (ResetMetrics e (sink w)) (ErrorTotal w)
                        (calls w ++ [ResetMetricsCall])).

Definition callExportMetrics {St} (e : Exporter St) (data : bytes)
    (keyName secretName secretNamespace password : string)
    (labels : gmap string string) : M St Call (option error) :=
  fun w =>
    let (err, s) := ExportMetrics e data keyName secretName secretNamespace
                                  password labels (sink w) in
    (err, mkWorld s (ErrorTotal w)
            (calls w ++ [ExportMetricsCall data keyName secretName
                                           secretNamespace password labels])).

(** Lines 117-124.  The [if include { continue }] that ends the loop body
    changes nothing. *)
Fixpoint typeLoop (types : list string) (secretType : string) (include : bool)
    : bool :=
  match types with
  | [] => include
  | t :: rest =>
      let include := if String.eqb secretType t then true else include in
      typeLoop rest secretType include
  end.

(** Lines 115-129: [false] is the [continue] that skips the secret. *)
Definition typeFilter (includeSecretsTypes : list string) (secretType : string)
    : bool :=
  if 0 <? length includeSecretsTypes
  then typeLoop includeSecretsTypes secretType false
  else true.

(** Lines 182-202: the password handed to [ExportMetrics]. *)
Definition resolvePassword (client : Client) (secret : Secret.t) (name : string)
    : string :=
  let (password, _) :=
    getPasswordFromSecret client (Secret.Namespace secret) (Secret.Name secret)
                          "password" in
  let passwordKey := strings_TrimSuffix name (path_Ext name) +:+ ".password" in
  let password :=
    if String.eqb password "" then
      fst (getPasswordFromSecret client (Secret.Namespace secret)
             (Secret.Name secret +:+ "-password") passwordKey)
    else password in
  let password :=
    if String.eqb password "" then
      fst (getPasswordFromSecret client (Secret.Namespace secret)
             (Secret.Name secret +:+ "-password") (name +:+ ".password"))
    else password in
  password.

(** Lines 150-212: the body of [for name, bytes := range secret.Data]. *)
Definition dataBody {St} (Match : MatchFn)
    (p : t St) (client : Client) (secret : Secret.t) (entry : string * bytes)
    : M St Call unit :=
  let (name, bytes) := entry in
  include <- globLoop Match (includeSecretsDataGlobs p) name false ;;
  exclude <- globLoop Match (excludeSecretsDataGlobs p) name false ;;
  if include && negb exclude then
    let password := resolvePassword client secret name in
    err <- callExportMetrics (exporter p) bytes name (Secret.Name secret)
             (Secret.Namespace secret) password (Secret.Labels secret) ;;
    match err with
    | Some _ => ErrorTotal_Inc
    | None => ret tt
    end
  else ret tt.

(** Lines 112-213: the body of [for _, secret := range secrets].  [range] is
    the order in which Go visits the entries of a map. *)
Definition secretBody {St} (Match : MatchFn)
    (range : RangeFn)
    (p : t St) (client : Client) (secret : Secret.t) : M St Call unit :=
  if typeFilter (includeSecretsTypes p) (Secret.Type_ secret) then
    if annotationFilter (annotationSelectors p) (Secret.Annotations secret) then
      forEach (dataBody Match p client secret) (range _ (Secret.Data secret))
    else ret tt
  else ret tt.

(** Lines 81-213: one pass of the [for] loop of [StartChecking], up to the
    wait on [periodChannel]. *)
Definition tick {St} (Match : MatchFn)
    (range : RangeFn)
    (p : t St) (client : Client) : M St Call unit :=
  callResetMetrics (exporter p) ;;
  secrets <- namespaceLoop (SecretsList client) (namespaces p)
               (labelSelectors p) [] ;;
  forEach (secretBody Match range p client) secrets.

(** [StartChecking] run for as many periods as [clients] has elements, the
    cluster being [clients !! i] during period [i]. *)
Definition StartChecking {St} (Match : MatchFn)
    (range : RangeFn)
    (p : t St) (clients : list Client) : M St Call unit :=
  forEach (tick Match range p) clients.

End PeriodicSecretChecker.

(** ** PeriodicConfigMapChecker (periodicConfigMapChecker.go) *)

Module PeriodicConfigMapChecker.

(** The calls the checker makes on [p.exporter]; line 173 passes five
    arguments. *)
Inductive Call :=
| ResetMetricsCall
| ExportMetricsCall (data : bytes)
    (keyName configMapName configMapNamespace password : string).

Record Exporter (St : Type) := {
  ExportMetrics : bytes -> string -> string -> string -> string ->
                  St -> option error * St;
  ResetMetrics : St -> St
}.
Arguments ExportMetrics {St}.
Arguments ResetMetrics {St}.

Record t (St : Type) := {
  period : Z;
  labelSelectors : list string;
  kubeconfigPath : string;
  annotationSelectors : list string;
  namespaces : list string;
  exporter : Exporter St;
  includeConfigMapsDataGlobs : list string;
  excludeConfigMapsDataGlobs : list string
}.
Arguments period {St}.
Arguments labelSelectors {St}.
Arguments kubeconfigPath {St}.
Arguments annotationSelectors {St}.
Arguments namespaces {St}.
Arguments exporter {St}.
Arguments includeConfigMapsDataGlobs {St}.
Arguments excludeConfigMapsDataGlobs {St}.

Definition callResetMetrics {St} (e : Exporter St) : M St Call unit :=
  fun w => (tt, mkWorld (ResetMetrics e (sink w)) (ErrorTotal w)
                        (calls w ++ [ResetMetricsCall])).

Definition callExportMetrics {St} (e : Exporter St) (data : bytes)
    (keyName configMapName configMapNamespace password : string)
    : M St Call (option error) :=
  fun w =>
    let (err, s) := ExportMetrics e data keyName configMapName
                                  configMapNamespace password (sink w) in
    (err, mkWorld s (ErrorTotal w)
            (calls w ++ [ExportMetricsCall data keyName configMapName
                                           configMapNamespace password])).

(** Lines 117-124: [combinedMap], filled from [configMap.Data] first and from
    [configMap.BinaryData] second, each in the order [range] visits it. *)
Definition combinedMap (range : RangeFn)
    (configMap : ConfigMap.t) : gmap string bytes :=
  let combinedMap : gmap string bytes := ∅ in
  let combinedMap :=
    foldl (fun (m : gmap string bytes) (kv : string * string) =>
             <[kv.1 := list_byte_of_string kv.2]> m)
          combinedMap (range _ (ConfigMap.Data configMap)) in
  foldl (fun (m : gmap string bytes) (kv : string * bytes) =>
           <[kv.1 := kv.2]> m)
        combinedMap (range _ (ConfigMap.BinaryData configMap)).

(** Lines 158-171: the password handed to [ExportMetrics]. *)
Definition resolvePassword (client : Client) (configMap : ConfigMap.t)
    (name : string) : string :=
  let passwordKey := strings_TrimSuffix name (path_Ext name) +:+ ".password" in
  let (password, _) :=
    getPasswordFromSecret client (ConfigMap.Namespace configMap)
      (ConfigMap.Name configMap +:+ "-password") passwordKey in
  let password :=
    if String.eqb password "" then
      fst (getPasswordFromSecret client (ConfigMap.Namespace configMap)
             (ConfigMap.Name configMap +:+ "-password") (name +:+ ".password"))
    else password in
  password.

(** Lines 126-181: the body of [for name, data := range combinedMap]. *)
Definition dataBody {St} (Match : MatchFn)
    (p : t St) (client : Client) (configMap : ConfigMap.t)
    (entry : string * bytes) : M St Call unit :=
  let (name, data) := entry in
  include <- globLoop Match (includeConfigMapsDataGlobs p) name false ;;
  exclude <- globLoop Match (excludeConfigMapsDataGlobs p) name false ;;
  if include && negb exclude then
    let password := resolvePassword client configMap name in
    err <- callExportMetrics (exporter p) data name (ConfigMap.Name configMap)
             (ConfigMap.Namespace configMap) password ;;
    match err with
    | Some _ => ErrorTotal_Inc
    | None => ret tt
    end
  else ret tt.

(** Lines 96-182: the body of [for _, configMap := range configMaps]. *)
Definition configMapBody {St} (Match : MatchFn)
    (range : RangeFn)
    (p : t St) (client : Client) (configMap : ConfigMap.t) : M St Call unit :=
  if annotationFilter (annotationSelectors p) (ConfigMap.Annotations configMap)
  then forEach (dataBody Match p client configMap)
               (range _ (combinedMap range configMap))
  else ret tt.

(** Lines 65-182: one pass of the [for] loop of [StartChecking]. *)
Definition tick {St} (Match : MatchFn)
    (range : RangeFn)
    (p : t St) (client : Client) : M St Call unit :=
  callResetMetrics (exporter p) ;;
  configMaps <- namespaceLoop (ConfigMapsList client) (namespaces p)
                  (labelSelectors p) [] ;;
  forEach (configMapBody Match range p client) configMaps.

Definition StartChecking {St} (Match : MatchFn)
    (range : RangeFn)
    (p : t St) (clients : list Client) : M St Call unit :=
  forEach (tick Match range p) clients.

End PeriodicConfigMapChecker.

(** ** ConfigMapExporter (configMapExporter.go) *)

(** What the exporter needs of a [prometheus.GaugeVec]:
    [WithLabelValues(lvs...).Set(v)] and [Reset()] (here [Reset_]). *)
Class GaugeVec (G : Type) := {
  WithLabelValues_Set : list string -> float64 -> G -> G;
  Reset_ : G -> G
}.

(** The series a gauge vector holds: one value per label tuple. *)
#[export] Instance series_GaugeVec : GaugeVec (gmap (list string) float64) := {|
  WithLabelValues_Set lvs v g := <[lvs := v]> g;
  Reset_ _ := ∅
|}.

(** The journal of the operations performed on a gauge vector. *)
Inductive GaugeOp :=
| SetOp (lvs : list string) (v : float64)
| ResetOp.

#[export] Instance journal_GaugeVec : GaugeVec (list GaugeOp) := {|
  WithLabelValues_Set lvs v g := g ++ [SetOp lvs v];
  Reset_ g := g ++ [ResetOp]
|}.

Module ConfigMapExporter.

(** The two gauge vectors of package [metrics] the exporter writes to. *)
Record Metrics (G : Type) := mkMetrics {
  ConfigMapExpirySeconds : G;
  ConfigMapNotAfterTimestamp : G
}.
Arguments mkMetrics {G}.
Arguments ConfigMapExpirySeconds {G}.
Arguments ConfigMapNotAfterTimestamp {G}.

(** The fields of [certMetric] that [ExportMetrics] reads. *)
Record certMetric := {
  durationUntilExpiry : float64;
  notAfter : float64;
  issuer : string;
  cn : string
}.

(** The body of the [for _, metric := range metricCollection] loop,
    lines 21-22. *)
Definition exportOne {G} `{GaugeVec G}
    (keyName configMapName configMapNamespace serviceline : string)
    (m : Metrics G) (metric : certMetric) : Metrics G :=
  let m :=
    mkMetrics
      (WithLabelValues_Set
         [keyName; issuer metric; cn metric; configMapName;
          configMapNamespace; serviceline]
         (durationUntilExpiry metric) (ConfigMapExpirySeconds m))
      (ConfigMapNotAfterTimestamp m) in
  mkMetrics
    (ConfigMapExpirySeconds m)
    (WithLabelValues_Set
       [keyName; issuer metric; cn metric; configMapName;
        configMapNamespace; serviceline]
       (notAfter metric) (ConfigMapNotAfterTimestamp m)).

(** Lines 12-26.  [secondsToExpiryFromCertAsBytes] is the decoder; of its
    [([]certMetric, error)] result the code reads the slice only when the
    error is nil.  [labels["serviceline"]] is [""] when the key is absent. *)
Definition ExportMetrics {G} `{GaugeVec G}
    (secondsToExpiryFromCertAsBytes : bytes -> string -> list certMetric + error)
    (bytes : bytes) (keyName configMapName configMapNamespace password : string)
    (labels : gmap string string) (m : Metrics G) : option error * Metrics G :=
  match secondsToExpiryFromCertAsBytes bytes password with
  | inr err => (Some err, m)
  | inl metricCollection =>
      let serviceline := default "" (labels !! "serviceline") in
      (None,
       foldl (exportOne keyName configMapName configMapNamespace serviceline)
             m metricCollection)
  end.

(** Lines 28-31. *)
Definition ResetMetrics {G} `{GaugeVec G} (m : Metrics G) : Metrics G :=
  mkMetrics (Reset_ (ConfigMapExpirySeconds m))
            (Reset_ (ConfigMapNotAfterTimestamp m)).

End ConfigMapExporter.

(** ** What the loops compute

    Closed descriptions of the loops' results, used to state the properties
    below. *)

(** The value a glob loop leaves in its flag. *)
Fixpoint globFlag (Match : MatchFn)
    (globs : list string) (name : string) (flag : bool) : bool :=
  match globs with
  | [] => flag
  | glob :: rest =>
      let (matched, err) := Match glob name in
      match err with
      | Some _ => globFlag Match rest name matched
      | None => if matched then matched else globFlag Match rest name matched
      end
  end.

(** [name] matches at least one pattern of [globs]. *)
Definition matchesSome (Match : MatchFn)
    (globs : list string) (name : string) : Prop :=
  ∃ glob, glob ∈ globs ∧ (Match glob name).1 = true.

(** The contract of [filepath.Match]: with an error (the only one is
    [ErrBadPattern]) the reported match is [false]. *)
Definition MatchContract (Match : MatchFn) : Prop :=
  ∀ glob name e, (Match glob name).2 = Some e → (Match glob name).1 = false.

(** [range] visits every entry of a map exactly once, in some order. *)
Definition RangeContract (range : RangeFn)
    : Prop :=
  ∀ A (m : gmap string A), range A m ≡ₚ map_to_list m.

(** The (namespace, label selector) combinations a tick lists, in order;
    without label selectors one unfiltered call per namespace. *)
Definition combinations (namespaces labelSelectors : list string)
    : list (string * string) :=
  if 0 <? length labelSelectors
  then ns ← namespaces; (λ sel, (ns, sel)) <$> labelSelectors
  else (λ ns, (ns, "")) <$> namespaces.

(** The items one list call contributes: none when it fails. *)
Definition listItems {R} (List : string -> string -> list R + error)
    (c : string * string) : list R :=
  match List c.1 c.2 with
  | inl s => s
  | inr _ => []
  end.

Definition listFails {R} (List : string -> string -> list R + error)
    (c : string * string) : bool :=
  match List c.1 c.2 with
  | inl _ => false
  | inr _ => true
  end.

(** The candidate list of a tick and the number of failed list calls. *)
Definition candidates {R} (List : string -> string -> list R + error)
    (namespaces labelSelectors : list string) : list R :=
  c ← combinations namespaces labelSelectors; listItems List c.

Definition failedLists {R} (List : string -> string -> list R + error)
    (namespaces labelSelectors : list string) : nat :=
  length (filter (λ c, listFails List c = true)
                 (combinations namespaces labelSelectors)).

(** The first non-empty string of a list, [""] if there is none. *)
Fixpoint firstNonEmpty (l : list string) : string :=
  match l with
  | [] => ""
  | s :: rest => if String.eqb s "" then firstNonEmpty rest else s
  end.

(** The value of a password stage: the string [getPasswordFromSecret]
    returns. *)
Definition stage (client : Client) (namespace secretName passwordKey : string)
    : string :=
  (getPasswordFromSecret client namespace secretName passwordKey).1.

(** The exporter calls the Secret checker makes for one secret and in one
    tick. *)
Definition secretEntryExports {St}
    (Match : MatchFn)
    (p : PeriodicSecretChecker.t St) (client : Client) (secret : Secret.t)
    (entry : string * bytes) : list PeriodicSecretChecker.Call :=
  if globFlag Match (PeriodicSecretChecker.includeSecretsDataGlobs p) entry.1 false
     && negb (globFlag Match (PeriodicSecretChecker.excludeSecretsDataGlobs p)
                       entry.1 false)
  then [PeriodicSecretChecker.ExportMetricsCall entry.2 entry.1
          (Secret.Name secret) (Secret.Namespace secret)
          (PeriodicSecretChecker.resolvePassword client secret entry.1)
          (Secret.Labels secret)]
  else [].

Definition secretExports {St}
    (Match : MatchFn)
    (range : RangeFn)
    (p : PeriodicSecretChecker.t St) (client : Client) (secret : Secret.t)
    : list PeriodicSecretChecker.Call :=
  if PeriodicSecretChecker.typeFilter
       (PeriodicSecretChecker.includeSecretsTypes p) (Secret.Type_ secret)
     && annotationFilter (PeriodicSecretChecker.annotationSelectors p)
                         (Secret.Annotations secret)
  then entry ← range _ (Secret.Data secret);
       secretEntryExports Match p client secret entry
  else [].

Definition secretTickExports {St}
    (Match : MatchFn)
    (range : RangeFn)
    (p : PeriodicSecretChecker.t St) (client : Client)
    : list PeriodicSecretChecker.Call :=
  secret ← candidates (SecretsList client) (PeriodicSecretChecker.namespaces p)
                      (PeriodicSecretChecker.labelSelectors p);
  secretExports Match range p client secret.

(** The same for the ConfigMap checker. *)
Definition configMapEntryExports {St}
    (Match : MatchFn)
    (p : PeriodicConfigMapChecker.t St) (client : Client)
    (configMap : ConfigMap.t) (entry : string * bytes)
    : list PeriodicConfigMapChecker.Call :=
  if globFlag Match (PeriodicConfigMapChecker.includeConfigMapsDataGlobs p)
              entry.1 false
     && negb (globFlag Match
                (PeriodicConfigMapChecker.excludeConfigMapsDataGlobs p)
                entry.1 false)
  then [PeriodicConfigMapChecker.ExportMetricsCall entry.2 entry.1
          (ConfigMap.Name configMap) (ConfigMap.Namespace configMap)
          (PeriodicConfigMapChecker.resolvePassword client configMap entry.1)]
  else [].

Definition configMapExports {St}
    (Match : MatchFn)
    (range : RangeFn)
    (p : PeriodicConfigMapChecker.t St) (client : Client)
    (configMap : ConfigMap.t) : list PeriodicConfigMapChecker.Call :=
  if annotationFilter (PeriodicConfigMapChecker.annotationSelectors p)
                      (ConfigMap.Annotations configMap)
  then entry ← range _ (PeriodicConfigMapChecker.combinedMap range configMap);
       configMapEntryExports Match p client configMap entry
  else [].

Definition configMapTickExports {St}
    (Match : MatchFn)
    (range : RangeFn)
    (p : PeriodicConfigMapChecker.t St) (client : Client)
    : list PeriodicConfigMapChecker.Call :=
  configMap ← candidates (ConfigMapsList client)
                         (PeriodicConfigMapChecker.namespaces p)
                         (PeriodicConfigMapChecker.labelSelectors p);
  configMapExports Match range p client configMap.

(** The label tuple of the series [ExportMetrics] writes for one decoded
    certificate, and the last value a list of certificates gives a tuple. *)
Definition seriesKey (keyName configMapName configMapNamespace serviceline : string)
    (metric : ConfigMapExporter.certMetric) : list string :=
  [keyName; ConfigMapExporter.issuer metric; ConfigMapExporter.cn metric;
   configMapName; configMapNamespace; serviceline].

Fixpoint lastValue (key : ConfigMapExporter.certMetric -> list string)
    (val : ConfigMapExporter.certMetric -> float64)
    (lvs : list string) (metricCollection : list ConfigMapExporter.certMetric)
    (old : option float64) : option float64 :=
  match metricCollection with
  | [] => old
  | metric :: rest =>
      lastValue key val lvs rest
        (if decide (key metric = lvs) then Some (val metric) else old)
  end.

(** ** Properties of checker actions *)

(** The number of malformed patterns a glob loop meets before it stops. *)
Fixpoint globErrors (Match : MatchFn)
    (globs : list string) (name : string) : nat :=
  match globs with
  | [] => 0
  | glob :: rest =>
      let (matched, err) := Match glob name in
      match err with
      | Some _ => Datatypes.S (globErrors Match rest name)
      | None => if matched then 0 else globErrors Match rest name
      end
  end.

(** [m] makes exactly the exporter calls [l], whatever the world. *)
Definition emits {St Call A} (m : M St Call A) (l : list Call) : Prop :=
  ∀ w, calls (m w).2 = calls w ++ l.

(** [m] never decrements the error counter. *)
Definition counts {St Call A} (m : M St Call A) : Prop :=
  ∀ w, ErrorTotal w ≤ ErrorTotal (m w).2.

(** The result of [m] and the metrics it leaves depend on the world through
    the metrics only. *)
Definition sinkOnly {St Call A} (m : M St Call A) : Prop :=
  ∀ w w', sink w = sink w' →
          (m w).1 = (m w').1 ∧ sink (m w).2 = sink (m w').2.

(** [ResetMetrics] forgets everything that was published. *)
Definition Forgets {St} (ResetMetrics : St -> St) : Prop :=
  ∀ s s', ResetMetrics s = ResetMetrics s'.

(** No character of [s] is one at which the scan of [path.Ext] stops
    ([plain]); no character of [s] is a dot ([dotless]). *)
Definition plain (s : string) : Prop :=
  ∀ i c, String.get i s = Some c → c ≠ "."%char ∧ c ≠ "/"%char.

Definition dotless (s : string) : Prop :=
  ∀ i c, String.get i s = Some c → c ≠ "."%char.

(** The arguments of one [ConfigMapExporter.ExportMetrics] call, and the
    metrics left by a sequence of such calls. *)
Record ExportArgs := {
  argData : bytes;
  argKeyName : string;
  argName : string;
  argNamespace : string;
  argPassword : string;
  argLabels : gmap string string
}.

Definition exportWith {G} `{GaugeVec G}
    (decoder : bytes -> string -> list ConfigMapExporter.certMetric + error)
    (a : ExportArgs) (m : ConfigMapExporter.Metrics G)
    : ConfigMapExporter.Metrics G :=
  (ConfigMapExporter.ExportMetrics decoder (argData a) (argKeyName a)
     (argName a) (argNamespace a) (argPassword a) (argLabels a) m).2.

Definition exportAll {G} `{GaugeVec G}
    (decoder : bytes -> string -> list ConfigMapExporter.certMetric + error)
    (l : list ExportArgs) (m : ConfigMapExporter.Metrics G)
    : ConfigMapExporter.Metrics G :=
  foldl (λ m a, exportWith decoder a m) m l.

(** On every label tuple, [f] either keeps the value of both gauge vectors or
    sets it to one that does not depend on the metrics it started from. *)
Definition Overwrites
    (f : ConfigMapExporter.Metrics (gmap (list string) float64) ->
         ConfigMapExporter.Metrics (gmap (list string) float64)) : Prop :=
  ∀ lvs,
    ((∀ m, ConfigMapExporter.ConfigMapExpirySeconds (f m) !! lvs
           = ConfigMapExporter.ConfigMapExpirySeconds m !! lvs)
     ∨ (∃ v, ∀ m, ConfigMapExporter.ConfigMapExpirySeconds (f m) !! lvs = v))
    ∧
    ((∀ m, ConfigMapExporter.ConfigMapNotAfterTimestamp (f m) !! lvs
           = ConfigMapExporter.ConfigMapNotAfterTimestamp m !! lvs)
     ∨ (∃ v, ∀ m, ConfigMapExporter.ConfigMapNotAfterTimestamp (f m) !! lvs = v)).

(** ** A small cluster to run the model on *)

Module Example.

(** A matcher for the [*] / [?] fragment of [filepath.Match] patterns
    (neither wildcard crosses a [/]); a pattern with a [[] is reported as
    malformed. *)
Fixpoint wildcard (pattern : string) : string -> bool :=
  match pattern with
  | EmptyString => λ name, String.eqb name ""
  | String p pattern' =>
      if Ascii.eqb p "*" then
        fix star (name : string) : bool :=
          wildcard pattern' name ||
          match name with
          | EmptyString => false
          | String c name' => negb (Ascii.eqb c "/") && star name'
          end
      else if Ascii.eqb p "?" then
        λ name,
          match name with
          | EmptyString => false
          | String c name' => negb (Ascii.eqb c "/") && wildcard pattern' name'
          end
      else
        λ name,
          match name with
          | EmptyString => false
          | String c name' => Ascii.eqb c p && wildcard pattern' name'
          end
  end.

Fixpoint hasBracket (pattern : string) : bool :=
  match pattern with
  | EmptyString => false
  | String c rest => Ascii.eqb c "[" || hasBracket rest
  end.

Definition Match (pattern name : string) : bool * option error :=
  if hasBracket pattern then (false, Some "syntax error in pattern")
  else (wildcard pattern name, None).

Definition range (A : Type) (m : gmap string A) : list (string * A) :=
  map_to_list m.

(** Secret [tls-1] of namespace [default], labelled [serviceline=payments],
    with a certificate under [tls.crt]; its passwords live in [tls-1-password]. *)
Definition certBytes : bytes := [x2d; x2d; x2d].

Definition tls1 : Secret.t := {|
  Secret.Name := "tls-1";
  Secret.Namespace := "default";
  Secret.Type_ := "kubernetes.io/tls";
  Secret.Labels := {[ "serviceline" := "payments" ]};
  Secret.Annotations := {[ "cert-exporter/scan" := "no" ]};
  Secret.Data := {[ "tls.crt" := certBytes; "config.txt" := [] ]}
|}.

Definition tls1Password : Secret.t := {|
  Secret.Name := "tls-1-password";
  Secret.Namespace := "default";
  Secret.Type_ := "Opaque";
  Secret.Labels := ∅;
  Secret.Annotations := ∅;
  Secret.Data := {[ "tls.password" := list_byte_of_string "s3cret";
                    "tls.crt.password" := list_byte_of_string "other" ]}
|}.

(** [tls-1] again, now with an empty [password] entry of its own. *)
Definition tls1EmptyPassword : Secret.t := {|
  Secret.Name := "tls-1";
  Secret.Namespace := "default";
  Secret.Type_ := "kubernetes.io/tls";
  Secret.Labels := {[ "serviceline" := "payments" ]};
  Secret.Annotations := {[ "cert-exporter/scan" := "no" ]};
  Secret.Data := {[ "tls.crt" := certBytes; "password" := [] ]}
|}.

Definition bundle : ConfigMap.t := {|
  ConfigMap.Name := "ca-bundle";
  ConfigMap.Namespace := "default";
  ConfigMap.Labels := ∅;
  ConfigMap.Annotations := ∅;
  ConfigMap.Data := {[ "ca.crt" := "text"; "notes.txt" := "n" ]};
  ConfigMap.BinaryData := {[ "ca.crt" := certBytes ]}
|}.

(** Namespace [default] lists fine; every list call on another namespace
    fails. *)
Definition client : Client := {|
  SecretsList ns sel :=
    if String.eqb ns "default" then inl [tls1] else inr "forbidden";
  SecretsGet ns name :=
    if String.eqb ns "default" && String.eqb name "tls-1" then inl tls1
    else if String.eqb ns "default" && String.eqb name "tls-1-password"
         then inl tls1Password
    else inr "not found";
  ConfigMapsList ns sel :=
    if String.eqb ns "default" then inl [bundle] else inr "forbidden"
|}.

(** The same cluster with the empty [password] entry in [tls-1]. *)
Definition clientEmptyPassword : Client := {|
  SecretsList ns sel :=
    if String.eqb ns "default" then inl [tls1EmptyPassword] else inr "forbidden";
  SecretsGet ns name :=
    if String.eqb ns "default" && String.eqb name "tls-1"
    then inl tls1EmptyPassword
    else if String.eqb ns "default" && String.eqb name "tls-1-password"
         then inl tls1Password
    else inr "not found";
  ConfigMapsList ns sel :=
    if String.eqb ns "default" then inl [bundle] else inr "forbidden"
|}.

(** A decoder that finds one certificate in any non-empty blob. *)
Definition cert : ConfigMapExporter.certMetric := {|
  ConfigMapExporter.durationUntilExpiry := 86400%float;
  ConfigMapExporter.notAfter := 1800000000%float;
  ConfigMapExporter.issuer := "ca";
  ConfigMapExporter.cn := "tls-1"
|}.

Definition decoder (data : bytes) (password : string)
    : list ConfigMapExporter.certMetric + error :=
  match data with
  | [] => inr "failed to parse as pem and pkcs12"
  | _ => inl [cert]
  end.

Definition series : Type := gmap (list string) float64.

(** An exporter for the Secret checker, of the shape of [ConfigMapExporter]. *)
Definition secretExporter
    : PeriodicSecretChecker.Exporter (ConfigMapExporter.Metrics series) := {|
  PeriodicSecretChecker.ExportMetrics := ConfigMapExporter.ExportMetrics decoder;
  PeriodicSecretChecker.ResetMetrics := ConfigMapExporter.ResetMetrics
|}.

(** [ConfigMapExporter] behind the five-argument call of the ConfigMap
    checker: no labels reach it. *)
Definition configMapExporter
    : PeriodicConfigMapChecker.Exporter (ConfigMapExporter.Metrics series) := {|
  PeriodicConfigMapChecker.ExportMetrics data keyName name namespace password :=
    ConfigMapExporter.ExportMetrics decoder data keyName name namespace
                                    password ∅;
  PeriodicConfigMapChecker.ResetMetrics := ConfigMapExporter.ResetMetrics
|}.

Definition secretChecker
    : PeriodicSecretChecker.t (ConfigMapExporter.Metrics series) := {|
  PeriodicSecretChecker.period := 3600;
  PeriodicSecretChecker.labelSelectors := ["app=web"; "tier=edge"];
  PeriodicSecretChecker.kubeconfigPath := "";
  PeriodicSecretChecker.annotationSelectors := ["cert-exporter/scan"];
  PeriodicSecretChecker.namespaces := ["kube-system"; "default"];
  PeriodicSecretChecker.exporter := secretExporter;
  PeriodicSecretChecker.includeSecretsDataGlobs := ["[" ; "*.crt"];
  PeriodicSecretChecker.excludeSecretsDataGlobs := ["*.key"];
  PeriodicSecretChecker.includeSecretsTypes := ["kubernetes.io/tls"]
|}.

Definition configMapChecker
    : PeriodicConfigMapChecker.t (ConfigMapExporter.Metrics series) := {|
  PeriodicConfigMapChecker.period := 3600;
  PeriodicConfigMapChecker.labelSelectors := [];
  PeriodicConfigMapChecker.kubeconfigPath := "";
  PeriodicConfigMapChecker.annotationSelectors := [];
  PeriodicConfigMapChecker.namespaces := ["kube-system"; "default"];
  PeriodicConfigMapChecker.exporter := configMapExporter;
  PeriodicConfigMapChecker.includeConfigMapsDataGlobs := ["*.crt"];
  PeriodicConfigMapChecker.excludeConfigMapsDataGlobs := []
|}.

Definition emptyMetrics : ConfigMapExporter.Metrics series :=
  ConfigMapExporter.mkMetrics ∅ ∅.

(** A world that still holds a series of an earlier tick. *)
Definition staleMetrics : ConfigMapExporter.Metrics series :=
  ConfigMapExporter.mkMetrics
    {[ ["old.crt"; "ca"; "gone"; "tls-0"; "default"; ""] := 5%float ]}
    {[ ["old.crt"; "ca"; "gone"; "tls-0"; "default"; ""] := 1700000000%float ]}.

Definition world0 {Call} : World (ConfigMapExporter.Metrics series) Call :=
  mkWorld emptyMetrics 0 [].

Definition world1 {Call} : World (ConfigMapExporter.Metrics series) Call :=
  mkWorld staleMetrics 7 [].

(** Two exports of a tick: the certificate of [tls-1], and that of the
    ConfigMap [ca-bundle]. *)
Definition exportTls1 : ExportArgs := {|
  argData := certBytes;
  argKeyName := "tls.crt";
  argName := "tls-1";
  argNamespace := "default";
  argPassword := "s3cret";
  argLabels := {[ "serviceline" := "payments" ]}
|}.

Definition exportBundle : ExportArgs := {|
  argData := certBytes;
  argKeyName := "ca.crt";
  argName := "ca-bundle";
  argNamespace := "default";
  argPassword := "";
  argLabels := ∅
|}.

End Example.

(** ** The factories and further descriptions *)

(** periodicSecretChecker.go, lines 35-47. *)
Definition NewSecretChecker {St} (period : Z)
    (labelSelectors includeSecretsDataGlobs excludeSecretsDataGlobs
     annotationSelectors namespaces : list string)
    (kubeconfigPath : string) (e : PeriodicSecretChecker.Exporter St)
    (includeSecretsTypes : list string) : PeriodicSecretChecker.t St := {|
  PeriodicSecretChecker.period := period;
  PeriodicSecretChecker.labelSelectors := labelSelectors;
  PeriodicSecretChecker.annotationSelectors := annotationSelectors;
  PeriodicSecretChecker.namespaces := namespaces;
  PeriodicSecretChecker.kubeconfigPath := kubeconfigPath;
  PeriodicSecretChecker.exporter := e;
  PeriodicSecretChecker.includeSecretsDataGlobs := includeSecretsDataGlobs;
  PeriodicSecretChecker.excludeSecretsDataGlobs := excludeSecretsDataGlobs;
  PeriodicSecretChecker.includeSecretsTypes := includeSecretsTypes
|}.

(** periodicConfigMapChecker.go, lines 33-44. *)
Definition NewConfigMapChecker {St} (period : Z)
    (labelSelectors includeConfigMapsDataGlobs excludeConfigMapsDataGlobs
     annotationSelectors namespaces : list string)
    (kubeconfigPath : string) (e : PeriodicConfigMapChecker.Exporter St)
    : PeriodicConfigMapChecker.t St := {|
  PeriodicConfigMapChecker.period := period;
  PeriodicConfigMapChecker.labelSelectors := labelSelectors;
  PeriodicConfigMapChecker.annotationSelectors := annotationSelectors;
  PeriodicConfigMapChecker.namespaces := namespaces;
  PeriodicConfigMapChecker.kubeconfigPath := kubeconfigPath;
  PeriodicConfigMapChecker.exporter := e;
  PeriodicConfigMapChecker.includeConfigMapsDataGlobs :=
    includeConfigMapsDataGlobs;
  PeriodicConfigMapChecker.excludeConfigMapsDataGlobs :=
    excludeConfigMapsDataGlobs
|}.

(** Making the exporter calls [cs] again, in order, on the metrics [s]: the
    number of calls that return an error and the metrics left.  [step] makes
    one call. *)
Fixpoint replay {St Call} (step : Call -> St -> nat * St) (cs : list Call)
    (s : St) : nat * St :=
  match cs with
  | [] => (0, s)
  | c :: rest =>
      let (k, s') := step c s in
      let (n, s'') := replay step rest s' in
      (k + n, s'')
  end.

Definition secretStep {St} (e : PeriodicSecretChecker.Exporter St)
    (call : PeriodicSecretChecker.Call) (s : St) : nat * St :=
  match call with
  | PeriodicSecretChecker.ResetMetricsCall =>
      (0, PeriodicSecretChecker.ResetMetrics e s)
  | PeriodicSecretChecker.ExportMetricsCall data keyName name ns password
                                            labels =>
      let (err, s') :=
        PeriodicSecretChecker.ExportMetrics e data keyName name ns password
                                            labels s in
      (match err with Some _ => 1 | None => 0 end, s')
  end.

Definition configMapStep {St} (e : PeriodicConfigMapChecker.Exporter St)
    (call : PeriodicConfigMapChecker.Call) (s : St) : nat * St :=
  match call with
  | PeriodicConfigMapChecker.ResetMetricsCall =>
      (0, PeriodicConfigMapChecker.ResetMetrics e s)
  | PeriodicConfigMapChecker.ExportMetricsCall data keyName name ns password =>
      let (err, s') :=
        PeriodicConfigMapChecker.ExportMetrics e data keyName name ns password
                                               s in
      (match err with Some _ => 1 | None => 0 end, s')
  end.

(** [m] makes the exporter calls [l] and counts an error for each of them
    that fails, and for nothing else. *)
Definition tallies {St Call A} (step : Call -> St -> nat * St)
    (m : M St Call A) (l : list Call) : Prop :=
  ∀ w, calls (m w).2 = calls w ++ l
       ∧ sink (m w).2 = (replay step l (sink w)).2
       ∧ ErrorTotal (m w).2 = ErrorTotal w + (replay step l (sink w)).1.

(** The key name of an exporter call ([""] for [ResetMetrics]). *)
Definition secretCallKey (call : PeriodicSecretChecker.Call) : string :=
  match call with
  | PeriodicSecretChecker.ExportMetricsCall _ keyName _ _ _ _ => keyName
  | PeriodicSecretChecker.ResetMetricsCall => ""
  end.

Definition configMapCallKey (call : PeriodicConfigMapChecker.Call) : string :=
  match call with
  | PeriodicConfigMapChecker.ExportMetricsCall _ keyName _ _ _ => keyName
  | PeriodicConfigMapChecker.ResetMetricsCall => ""
  end.

(** What an export is about: the entry and the resource it names. *)
Definition exportTarget (a : ExportArgs) : string * string * string :=
  (argKeyName a, argName a, argNamespace a).

(** The label tuples an export writes. *)
Definition exportKeys
    (decoder : bytes -> string -> list ConfigMapExporter.certMetric + error)
    (a : ExportArgs) : list (list string) :=
  match decoder (argData a) (argPassword a) with
  | inl metricCollection =>
      seriesKey (argKeyName a) (argName a) (argNamespace a)
                (default "" (argLabels a !! "serviceline"))
        <$> metricCollection
  | inr _ => []
  end.

Module Example2.

(** Another visiting order: that of [Example.range], reversed. *)
Definition rangeReversed (A : Type) (m : gmap string A) : list (string * A) :=
  reverse (map_to_list m).

(** Checkers of namespace [default] alone, with well-formed patterns; their
    exporters are those of [Example], which fail on data that holds no
    certificate. *)
Definition secretChecker
    : PeriodicSecretChecker.t (ConfigMapExporter.Metrics Example.series) :=
  NewSecretChecker 3600 [] ["*.crt"] ["*.key"] [] ["default"] ""
                   Example.secretExporter [].

Definition configMapChecker
    : PeriodicConfigMapChecker.t (ConfigMapExporter.Metrics Example.series) :=
  NewConfigMapChecker 3600 [] ["*.crt"] ["*.key"] [] ["default"] ""
                      Example.configMapExporter.

End Example2.

(** * Lemmas *)

Section Monad.
Context {St Call : Type}.

Lemma bind_run {A B} (m : M St Call A) (k : A -> M St Call B) w :
  bind m k w = k (m w).1 (m w).2.
Proof. unfold bind. by destruct (m w). Qed.

Lemma emits_ret {A} (a : A) : emits (ret (St:=St) (Call:=Call) a) [].
Proof. intros w. simpl. by rewrite app_nil_r. Qed.

Lemma emits_bind {A B} (m : M St Call A) (k : A -> M St Call B) l1 l2 :
  emits m l1 → (∀ a, emits (k a) l2) → emits (bind m k) (l1 ++ l2).
Proof.
  intros Hm Hk w. rewrite bind_run, Hk, Hm. by rewrite app_assoc.
Qed.

Lemma emits_Inc : emits (ErrorTotal_Inc (St:=St) (Call:=Call)) [].
Proof. intros w. simpl. by rewrite app_nil_r. Qed.

Lemma emits_forEach {A} (body : A -> M St Call unit) (f : A -> list Call) xs :
  (∀ x, emits (body x) (f x)) → emits (forEach body xs) (x ← xs; f x).
Proof.
  intros Hbody. induction xs as [|x xs IH]; simpl.
  - apply emits_ret.
  - apply emits_bind; [apply Hbody | intros _; apply IH].
Qed.

Lemma counts_ret {A} (a : A) : counts (ret (St:=St) (Call:=Call) a).
Proof. intros w. done. Qed.

Lemma counts_bind {A B} (m : M St Call A) (k : A -> M St Call B) :
  counts m → (∀ a, counts (k a)) → counts (bind m k).
Proof.
  intros Hm Hk w. rewrite bind_run.
  etrans; [apply (Hm w) | apply Hk].
Qed.

Lemma counts_Inc : counts (ErrorTotal_Inc (St:=St) (Call:=Call)).
Proof. intros w. simpl. lia. Qed.

Lemma counts_forEach {A} (body : A -> M St Call unit) xs :
  (∀ x, counts (body x)) → counts (forEach body xs).
Proof.
  intros Hbody. induction xs as [|x xs IH]; simpl.
  - apply counts_ret.
  - apply counts_bind; [apply Hbody | intros _; apply IH].
Qed.

Lemma sinkOnly_ret {A} (a : A) : sinkOnly (ret (St:=St) (Call:=Call) a).
Proof. intros w w' Hs. done. Qed.

Lemma sinkOnly_bind {A B} (m : M St Call A) (k : A -> M St Call B) :
  sinkOnly m → (∀ a, sinkOnly (k a)) → sinkOnly (bind m k).
Proof.
  intros Hm Hk w w' Hs. rewrite !bind_run.
  destruct (Hm w w' Hs) as [Ha Hs']. rewrite Ha. by apply Hk.
Qed.

Lemma sinkOnly_Inc : sinkOnly (ErrorTotal_Inc (St:=St) (Call:=Call)).
Proof. intros w w' Hs. done. Qed.

Lemma sinkOnly_forEach {A} (body : A -> M St Call unit) xs :
  (∀ x, sinkOnly (body x)) → sinkOnly (forEach body xs).
Proof.
  intros Hbody. induction xs as [|x xs IH]; simpl.
  - apply sinkOnly_ret.
  - apply sinkOnly_bind; [apply Hbody | intros _; apply IH].
Qed.

(** *** The glob loops *)

Lemma globLoop_run Match globs name flag (w : World St Call) :
  globLoop Match globs name flag w =
  (globFlag Match globs name flag,
   mkWorld (sink w) (globErrors Match globs name + ErrorTotal w) (calls w)).
Proof.
  revert flag w. induction globs as [|glob rest IH]; intros flag w; simpl.
  - by destruct w.
  - destruct (Match glob name) as [matched [e|]].
    + rewrite bind_run, IH. simpl. do 2 f_equal. lia.
    + destruct matched; [by destruct w | apply IH].
Qed.

Lemma globFlag_false_iff Match globs name :
  MatchContract Match →
  globFlag Match globs name false = true ↔ matchesSome Match globs name.
Proof.
  intros HM. unfold matchesSome. induction globs as [|glob rest IH]; simpl.
  - split; [done | intros (g & Hg & _); by apply elem_of_nil in Hg].
  - pose proof (HM glob name) as Hc.
    destruct (Match glob name) as [matched [e|]] eqn:E; simpl in Hc.
    + rewrite (Hc e eq_refl), IH. split.
      * intros (g & Hg & Hm). exists g. split; [by right | done].
      * intros (g & Hg & Hm). apply elem_of_cons in Hg as [->|Hg].
        -- rewrite E in Hm. simpl in Hm. by rewrite (Hc e eq_refl) in Hm.
        -- by exists g.
    + destruct matched.
      * split; [intros _ | done]. exists glob. split; [by left | by rewrite E].
      * rewrite IH. split.
        -- intros (g & Hg & Hm). exists g. split; [by right | done].
        -- intros (g & Hg & Hm). apply elem_of_cons in Hg as [->|Hg].
           ++ by rewrite E in Hm.
           ++ by exists g.
Qed.

(** *** The annotation filter *)

Lemma annotationLoop_true selectors annotations :
  annotationLoop selectors annotations false = true ↔
  ∃ selector, selector ∈ selectors ∧ is_Some (annotations !! selector).
Proof.
  induction selectors as [|sel rest IH]; simpl.
  - split; [done | intros (s & Hs & _); by apply elem_of_nil in Hs].
  - destruct (annotations !! sel) as [v|] eqn:E.
    + split; [intros _ | done]. exists sel. split; [by left | by rewrite E].
    + rewrite IH. split.
      * intros (s & Hs & Hv). exists s. split; [by right | done].
      * intros (s & Hs & Hv). apply elem_of_cons in Hs as [->|Hs].
        -- rewrite E in Hv. by destruct Hv.
        -- by exists s.
Qed.

Lemma annotationFilter_spec selectors annotations :
  annotationFilter selectors annotations = true ↔
  selectors = [] ∨
  ∃ selector, selector ∈ selectors ∧ is_Some (annotations !! selector).
Proof.
  unfold annotationFilter. destruct selectors as [|sel rest].
  - simpl. split; [by left | done].
  - change (0 <? length (sel :: rest)) with true. cbv iota.
    rewrite annotationLoop_true. split; [by right | by intros [?|?]].
Qed.

End Monad.

(** *** The listing loops *)

Section Listing.
Context {St Call R : Type}.
Implicit Types List : string -> string -> list R + error.

Lemma listItems_unfold List c :
  listItems List c = match List c.1 c.2 with inl s => s | inr _ => [] end.
Proof. done. Qed.

Lemma listFails_unfold List c :
  listFails List c = match List c.1 c.2 with inl _ => false | inr _ => true end.
Proof. done. Qed.

Lemma selectorLoop_run List ns labelSelectors items (w : World St Call) :
  selectorLoop List ns labelSelectors items w =
  (items ++ (c ← (λ sel, (ns, sel)) <$> labelSelectors; listItems List c),
   mkWorld (sink w)
     (length (filter (λ c, listFails List c = true)
                     ((λ sel, (ns, sel)) <$> labelSelectors)) + ErrorTotal w)
     (calls w)).
Proof.
  revert items w.
  induction labelSelectors as [|sel rest IH]; intros items w;
    cbn [selectorLoop].
  - simpl. rewrite app_nil_r. by destruct w.
  - rewrite fmap_cons, bind_cons, filter_cons.
    pose proof (listItems_unfold List (ns, sel)) as Hi.
    pose proof (listFails_unfold List (ns, sel)) as Hf. simpl in Hi, Hf.
    destruct (List ns sel) as [s|e].
    + rewrite IH, Hi, decide_False by (by rewrite Hf).
      by rewrite app_assoc.
    + rewrite bind_run, IH, Hi, decide_True by done.
      simpl. do 2 f_equal. lia.
Qed.

Lemma namespaceLoop_run List namespaces labelSelectors items (w : World St Call) :
  namespaceLoop List namespaces labelSelectors items w =
  (items ++ candidates List namespaces labelSelectors,
   mkWorld (sink w)
     (failedLists List namespaces labelSelectors + ErrorTotal w) (calls w)).
Proof.
  unfold candidates, failedLists, combinations. revert items w.
  induction namespaces as [|ns rest IH]; intros items w;
    cbn [namespaceLoop].
  - destruct (0 <? length labelSelectors); simpl;
      rewrite app_nil_r; by destruct w.
  - destruct (0 <? length labelSelectors) eqn:E.
    + rewrite bind_run, selectorLoop_run, IH. cbn [fst snd sink ErrorTotal calls].
      rewrite bind_cons, bind_app, filter_app, length_app, app_assoc.
      do 2 f_equal. lia.
    + rewrite fmap_cons, bind_cons, filter_cons.
      pose proof (listItems_unfold List (ns, "")) as Hi.
      pose proof (listFails_unfold List (ns, "")) as Hf. simpl in Hi, Hf.
      destruct (List ns "") as [s|e].
      * rewrite IH, Hi, decide_False by (by rewrite Hf).
        by rewrite app_assoc.
      * rewrite bind_run, IH, Hi, decide_True by done.
        simpl. do 2 f_equal. lia.
Qed.

Lemma combinations_selectors namespaces labelSelectors :
  0 < length labelSelectors →
  combinations namespaces labelSelectors =
  ns ← namespaces; (λ sel, (ns, sel)) <$> labelSelectors.
Proof.
  intros Hlen. unfold combinations.
  by destruct labelSelectors; [simpl in Hlen; lia|].
Qed.

Lemma candidates_selectors List namespaces labelSelectors :
  0 < length labelSelectors →
  candidates List namespaces labelSelectors =
  ns ← namespaces; sel ← labelSelectors; listItems List (ns, sel).
Proof.
  intros Hlen. unfold candidates. rewrite combinations_selectors by done.
  induction namespaces as [|ns rest IH]; [done|].
  rewrite !bind_cons, bind_app, IH. f_equal.
  by rewrite list_fmap_bind.
Qed.

End Listing.

(** *** The Secret checker *)

Section SecretChecker.
Import PeriodicSecretChecker.
Context {St : Type}.
Variable Match : MatchFn.
Variable range : RangeFn.
Variable p : PeriodicSecretChecker.t St.

Lemma secret_callExport_emits data keyName name ns password labels :
  emits (callExportMetrics (exporter p) data keyName name ns password labels)
        [ExportMetricsCall data keyName name ns password labels].
Proof.
  intros w. unfold callExportMetrics.
  by destruct (ExportMetrics (exporter p) data keyName name ns password labels
                             (sink w)).
Qed.

Lemma secret_callExport_counts data keyName name ns password labels :
  counts (callExportMetrics (exporter p) data keyName name ns password labels).
Proof.
  intros w. unfold callExportMetrics.
  by destruct (ExportMetrics (exporter p) data keyName name ns password labels
                             (sink w)).
Qed.

Lemma secret_callExport_sinkOnly data keyName name ns password labels :
  sinkOnly (callExportMetrics (exporter p) data keyName name ns password labels).
Proof.
  intros w w' Hs. unfold callExportMetrics. rewrite Hs.
  by destruct (ExportMetrics (exporter p) data keyName name ns password labels
                             (sink w')).
Qed.

Lemma secret_dataBody_run client secret entry w :
  dataBody Match p client secret entry w =
  (if globFlag Match (includeSecretsDataGlobs p) entry.1 false
      && negb (globFlag Match (excludeSecretsDataGlobs p) entry.1 false)
   then
     err <- callExportMetrics (exporter p) entry.2 entry.1 (Secret.Name secret)
              (Secret.Namespace secret) (resolvePassword client secret entry.1)
              (Secret.Labels secret) ;;
     match err with Some _ => ErrorTotal_Inc | None => ret tt end
   else ret tt)
    (mkWorld (sink w)
       (globErrors Match (excludeSecretsDataGlobs p) entry.1
        + (globErrors Match (includeSecretsDataGlobs p) entry.1 + ErrorTotal w))
       (calls w)).
Proof.
  destruct entry as [name data]. unfold dataBody.
  rewrite bind_run, globLoop_run. cbn [fst snd].
  rewrite bind_run, globLoop_run. done.
Qed.

Lemma secret_dataBody_emits client secret entry :
  emits (dataBody Match p client secret entry)
        (secretEntryExports Match p client secret entry).
Proof.
  intros w. rewrite secret_dataBody_run. unfold secretEntryExports.
  destruct (_ && _).
  - rewrite bind_run.
    match goal with |- context [callExportMetrics ?e ?a ?b ?c ?d ?f ?g ?w'] =>
      pose proof (secret_callExport_emits a b c d f g w') as Hc;
      destruct (callExportMetrics e a b c d f g w') as [[err|] w'']
    end; simpl in *; by rewrite Hc.
  - simpl. by rewrite app_nil_r.
Qed.

Lemma secret_dataBody_counts client secret entry :
  counts (dataBody Match p client secret entry).
Proof.
  intros w. rewrite secret_dataBody_run.
  set (w0 := mkWorld _ _ _).
  assert (ErrorTotal w ≤ ErrorTotal w0) as Hle by (simpl; lia).
  etrans; [exact Hle|]. destruct (_ && _); [|done].
  apply counts_bind; [apply secret_callExport_counts|].
  intros [e|]; [apply counts_Inc | apply counts_ret].
Qed.

Lemma secret_dataBody_sinkOnly client secret entry :
  sinkOnly (dataBody Match p client secret entry).
Proof.
  intros w w' Hs. rewrite !secret_dataBody_run.
  destruct (_ && _); [|done].
  apply sinkOnly_bind; [apply secret_callExport_sinkOnly | | done].
  intros [e|]; [apply sinkOnly_Inc | apply sinkOnly_ret].
Qed.

Lemma secret_body_emits client secret :
  emits (secretBody Match range p client secret)
        (secretExports Match range p client secret).
Proof.
  unfold secretBody, secretExports.
  destruct (typeFilter _ _); [|apply emits_ret].
  destruct (annotationFilter _ _); [|apply emits_ret].
  apply emits_forEach. intros entry. apply secret_dataBody_emits.
Qed.

Lemma secret_body_counts client secret :
  counts (secretBody Match range p client secret).
Proof.
  unfold secretBody.
  destruct (typeFilter _ _); [|apply counts_ret].
  destruct (annotationFilter _ _); [|apply counts_ret].
  apply counts_forEach. intros entry. apply secret_dataBody_counts.
Qed.

Lemma secret_body_sinkOnly client secret :
  sinkOnly (secretBody Match range p client secret).
Proof.
  unfold secretBody.
  destruct (typeFilter _ _); [|apply sinkOnly_ret].
  destruct (annotationFilter _ _); [|apply sinkOnly_ret].
  apply sinkOnly_forEach. intros entry. apply secret_dataBody_sinkOnly.
Qed.

Lemma secret_tick_run client w :
  tick Match range p client w =
  forEach (secretBody Match range p client)
    (candidates (SecretsList client) (namespaces p) (labelSelectors p))
    (mkWorld (ResetMetrics (exporter p) (sink w))
       (failedLists (SecretsList client) (namespaces p) (labelSelectors p)
        + ErrorTotal w)
       (calls w ++ [ResetMetricsCall])).
Proof.
  unfold tick. rewrite bind_run. unfold callResetMetrics.
  cbn [fst snd]. rewrite bind_run, namespaceLoop_run. done.
Qed.

Lemma secret_tick_emits client :
  emits (tick Match range p client)
        (ResetMetricsCall :: secretTickExports Match range p client).
Proof.
  intros w. rewrite secret_tick_run.
  rewrite (emits_forEach _ _ _ (secret_body_emits client)).
  simpl. by rewrite <- app_assoc.
Qed.

Lemma secret_tick_counts client w :
  failedLists (SecretsList client) (namespaces p) (labelSelectors p)
  + ErrorTotal w ≤ ErrorTotal (tick Match range p client w).2.
Proof.
  rewrite secret_tick_run.
  etrans; [|apply counts_forEach; intros s; apply secret_body_counts]. done.
Qed.

Lemma secret_tick_forgets client w w' :
  Forgets (ResetMetrics (exporter p)) →
  sink (tick Match range p client w).2 = sink (tick Match range p client w').2.
Proof.
  intros HR. rewrite !secret_tick_run.
  apply sinkOnly_forEach; [intros s; apply secret_body_sinkOnly|].
  simpl. apply HR.
Qed.

Lemma secret_StartChecking_emits clients :
  emits (StartChecking Match range p clients)
        (client ← clients;
         ResetMetricsCall :: secretTickExports Match range p client).
Proof. apply emits_forEach. intros client. apply secret_tick_emits. Qed.

Lemma secretExports_no_reset client secret :
  ResetMetricsCall ∉ secretExports Match range p client secret.
Proof.
  unfold secretExports. destruct (_ && _); [|apply not_elem_of_nil].
  rewrite list_elem_of_bind. intros (entry & Hin & _).
  unfold secretEntryExports in Hin. destruct (_ && _).
  - by apply list_elem_of_singleton in Hin.
  - by apply elem_of_nil in Hin.
Qed.

Lemma secretTickExports_no_reset client :
  ResetMetricsCall ∉ secretTickExports Match range p client.
Proof.
  unfold secretTickExports. rewrite list_elem_of_bind.
  intros (secret & Hin & _). by apply secretExports_no_reset in Hin.
Qed.

End SecretChecker.

(** *** The ConfigMap checker *)

Section ConfigMapChecker.
Import PeriodicConfigMapChecker.
Context {St : Type}.
Variable Match : MatchFn.
Variable range : RangeFn.
Variable p : PeriodicConfigMapChecker.t St.

Lemma configMap_callExport_emits data keyName name ns password :
  emits (callExportMetrics (exporter p) data keyName name ns password)
        [ExportMetricsCall data keyName name ns password].
Proof.
  intros w. unfold callExportMetrics.
  by destruct (ExportMetrics (exporter p) data keyName name ns password (sink w)).
Qed.

Lemma configMap_callExport_counts data keyName name ns password :
  counts (callExportMetrics (exporter p) data keyName name ns password).
Proof.
  intros w. unfold callExportMetrics.
  by destruct (ExportMetrics (exporter p) data keyName name ns password (sink w)).
Qed.

Lemma configMap_callExport_sinkOnly data keyName name ns password :
  sinkOnly (callExportMetrics (exporter p) data keyName name ns password).
Proof.
  intros w w' Hs. unfold callExportMetrics. rewrite Hs.
  by destruct (ExportMetrics (exporter p) data keyName name ns password (sink w')).
Qed.

Lemma configMap_dataBody_run client configMap entry w :
  dataBody Match p client configMap entry w =
  (if globFlag Match (includeConfigMapsDataGlobs p) entry.1 false
      && negb (globFlag Match (excludeConfigMapsDataGlobs p) entry.1 false)
   then
     err <- callExportMetrics (exporter p) entry.2 entry.1
              (ConfigMap.Name configMap) (ConfigMap.Namespace configMap)
              (resolvePassword client configMap entry.1) ;;
     match err with Some _ => ErrorTotal_Inc | None => ret tt end
   else ret tt)
    (mkWorld (sink w)
       (globErrors Match (excludeConfigMapsDataGlobs p) entry.1
        + (globErrors Match (includeConfigMapsDataGlobs p) entry.1
           + ErrorTotal w))
       (calls w)).
Proof.
  destruct entry as [name data]. unfold dataBody.
  rewrite bind_run, globLoop_run. cbn [fst snd].
  rewrite bind_run, globLoop_run. done.
Qed.

Lemma configMap_dataBody_emits client configMap entry :
  emits (dataBody Match p client configMap entry)
        (configMapEntryExports Match p client configMap entry).
Proof.
  intros w. rewrite configMap_dataBody_run. unfold configMapEntryExports.
  destruct (_ && _).
  - rewrite bind_run.
    match goal with |- context [callExportMetrics ?e ?a ?b ?c ?d ?f ?w'] =>
      pose proof (configMap_callExport_emits a b c d f w') as Hc;
      destruct (callExportMetrics e a b c d f w') as [[err|] w'']
    end; simpl in *; by rewrite Hc.
  - simpl. by rewrite app_nil_r.
Qed.

Lemma configMap_dataBody_counts client configMap entry :
  counts (dataBody Match p client configMap entry).
Proof.
  intros w. rewrite configMap_dataBody_run.
  set (w0 := mkWorld _ _ _).
  assert (ErrorTotal w ≤ ErrorTotal w0) as Hle by (simpl; lia).
  etrans; [exact Hle|]. destruct (_ && _); [|done].
  apply counts_bind; [apply configMap_callExport_counts|].
  intros [e|]; [apply counts_Inc | apply counts_ret].
Qed.

Lemma configMap_dataBody_sinkOnly client configMap entry :
  sinkOnly (dataBody Match p client configMap entry).
Proof.
  intros w w' Hs. rewrite !configMap_dataBody_run.
  destruct (_ && _); [|done].
  apply sinkOnly_bind; [apply configMap_callExport_sinkOnly | | done].
  intros [e|]; [apply sinkOnly_Inc | apply sinkOnly_ret].
Qed.

Lemma configMap_body_emits client configMap :
  emits (configMapBody Match range p client configMap)
        (configMapExports Match range p client configMap).
Proof.
  unfold configMapBody, configMapExports.
  destruct (annotationFilter _ _); [|apply emits_ret].
  apply emits_forEach. intros entry. apply configMap_dataBody_emits.
Qed.

Lemma configMap_body_counts client configMap :
  counts (configMapBody Match range p client configMap).
Proof.
  unfold configMapBody.
  destruct (annotationFilter _ _); [|apply counts_ret].
  apply counts_forEach. intros entry. apply configMap_dataBody_counts.
Qed.

Lemma configMap_body_sinkOnly client configMap :
  sinkOnly (configMapBody Match range p client configMap).
Proof.
  unfold configMapBody.
  destruct (annotationFilter _ _); [|apply sinkOnly_ret].
  apply sinkOnly_forEach. intros entry. apply configMap_dataBody_sinkOnly.
Qed.

Lemma configMap_tick_run client w :
  tick Match range p client w =
  forEach (configMapBody Match range p client)
    (candidates (ConfigMapsList client) (namespaces p) (labelSelectors p))
    (mkWorld (ResetMetrics (exporter p) (sink w))
       (failedLists (ConfigMapsList client) (namespaces p) (labelSelectors p)
        + ErrorTotal w)
       (calls w ++ [ResetMetricsCall])).
Proof.
  unfold tick. rewrite bind_run. unfold callResetMetrics.
  cbn [fst snd]. rewrite bind_run, namespaceLoop_run. done.
Qed.

Lemma configMap_tick_emits client :
  emits (tick Match range p client)
        (ResetMetricsCall :: configMapTickExports Match range p client).
Proof.
  intros w. rewrite configMap_tick_run.
  rewrite (emits_forEach _ _ _ (configMap_body_emits client)).
  simpl. by rewrite <- app_assoc.
Qed.

Lemma configMap_tick_counts client w :
  failedLists (ConfigMapsList client) (namespaces p) (labelSelectors p)
  + ErrorTotal w ≤ ErrorTotal (tick Match range p client w).2.
Proof.
  rewrite configMap_tick_run.
  etrans; [|apply counts_forEach; intros s; apply configMap_body_counts]. done.
Qed.

Lemma configMap_tick_forgets client w w' :
  Forgets (ResetMetrics (exporter p)) →
  sink (tick Match range p client w).2 = sink (tick Match range p client w').2.
Proof.
  intros HR. rewrite !configMap_tick_run.
  apply sinkOnly_forEach; [intros s; apply configMap_body_sinkOnly|].
  simpl. apply HR.
Qed.

Lemma configMap_StartChecking_emits clients :
  emits (StartChecking Match range p clients)
        (client ← clients;
         ResetMetricsCall :: configMapTickExports Match range p client).
Proof. apply emits_forEach. intros client. apply configMap_tick_emits. Qed.

Lemma configMapExports_no_reset client configMap :
  ResetMetricsCall ∉ configMapExports Match range p client configMap.
Proof.
  unfold configMapExports. destruct (annotationFilter _ _);
    [|apply not_elem_of_nil].
  rewrite list_elem_of_bind. intros (entry & Hin & _).
  unfold configMapEntryExports in Hin. destruct (_ && _).
  - by apply list_elem_of_singleton in Hin.
  - by apply elem_of_nil in Hin.
Qed.

Lemma configMapTickExports_no_reset client :
  ResetMetricsCall ∉ configMapTickExports Match range p client.
Proof.
  unfold configMapTickExports. rewrite list_elem_of_bind.
  intros (configMap & Hin & _). by apply configMapExports_no_reset in Hin.
Qed.

End ConfigMapChecker.

Lemma forEach_snoc {St Call A} (body : A -> M St Call unit) xs x w :
  forEach body (xs ++ [x]) w = body x (forEach body xs w).2.
Proof.
  revert w. induction xs as [|y ys IH]; intros w; simpl.
  - rewrite bind_run. by destruct (body x w) as [[] w'].
  - by rewrite !bind_run, IH.
Qed.

Lemma annotationLoop_dom selectors (annotations annotations' : gmap string string)
    matches :
  dom annotations' = dom annotations →
  annotationLoop selectors annotations' matches =
  annotationLoop selectors annotations matches.
Proof.
  intros Hdom. induction selectors as [|sel rest IH]; simpl; [done|].
  assert (is_Some (annotations' !! sel) ↔ is_Some (annotations !! sel)) as Hs.
  { by rewrite <- !elem_of_dom, Hdom. }
  destruct (annotations' !! sel) as [v'|] eqn:E', (annotations !! sel) as [v|] eqn:E;
    try done.
  - destruct Hs as [Hs _]. destruct Hs as [? ?]; [by eexists | done].
  - destruct Hs as [_ Hs]. destruct Hs as [? ?]; [by eexists | done].
Qed.

Lemma range_elem_of (range : RangeFn) {A} (m : gmap string A) k v :
  RangeContract range → (k, v) ∈ range A m ↔ m !! k = Some v.
Proof. intros HR. by rewrite (HR A m), elem_of_map_to_list. Qed.

Lemma range_NoDup_fst (range : RangeFn) {A} (m : gmap string A) :
  RangeContract range → NoDup (range A m).*1.
Proof. intros HR. rewrite (HR A m). apply NoDup_fst_map_to_list. Qed.

Lemma included_iff (Match : MatchFn) include exclude name :
  MatchContract Match →
  globFlag Match include name false && negb (globFlag Match exclude name false)
  = true ↔
  matchesSome Match include name ∧ ¬ matchesSome Match exclude name.
Proof.
  intros HM. rewrite andb_true_iff, negb_true_iff.
  rewrite <- !(globFlag_false_iff Match) by done.
  by rewrite not_true_iff_false.
Qed.

Lemma Example_Match_contract : MatchContract Example.Match.
Proof.
  intros glob name e. unfold Example.Match.
  by destruct (Example.hasBracket glob).
Qed.

Lemma Example_range_contract : RangeContract Example.range.
Proof. intros A m. reflexivity. Qed.

(** *** Strings: [path.Ext] and [strings.TrimSuffix] *)

Lemma string_length_app (s1 s2 : string) :
  String.length (s1 +:+ s2) = String.length s1 + String.length s2.
Proof. induction s1 as [|c s1 IH]; simpl; [done | by rewrite IH]. Qed.

Lemma substring_0_all (s : string) : String.substring 0 (String.length s) s = s.
Proof. induction s as [|c s IH]; simpl; [done | by rewrite IH]. Qed.

Lemma substring_0_0 (s : string) : String.substring 0 0 s = "".
Proof. by destruct s. Qed.

Lemma substring_prefix (s1 s2 : string) :
  String.substring 0 (String.length s1) (s1 +:+ s2) = s1.
Proof.
  induction s1 as [|c s1 IH]; simpl; [apply substring_0_0 | by rewrite IH].
Qed.

Lemma substring_suffix (s1 s2 : string) :
  String.substring (String.length s1) (String.length s2) (s1 +:+ s2) = s2.
Proof.
  induction s1 as [|c s1 IH]; simpl; [apply substring_0_all | done].
Qed.

Lemma get_app_r (s1 s2 : string) i :
  String.get (String.length s1 + i) (s1 +:+ s2) = String.get i s2.
Proof. induction s1 as [|c s1 IH]; simpl; done. Qed.

Lemma get_lt_Some (s : string) i :
  i < String.length s → ∃ c, String.get i s = Some c.
Proof.
  revert i. induction s as [|c s IH]; intros i Hi; simpl in *; [lia|].
  destruct i as [|i]; [by eexists | apply IH; lia].
Qed.

Lemma path_Ext_from_dotless (s : string) n :
  dotless s → path_Ext_from s n = "".
Proof.
  intros Hs. induction n as [|i IH]; simpl; [done|].
  destruct (String.get i s) as [c|] eqn:E; [|done].
  destruct (Ascii.eqb c "/"); [done|].
  destruct (Ascii.eqb_spec c "."); [by apply Hs in E | done].
Qed.

Lemma path_Ext_from_ext (base ext : string) k :
  plain ext → k ≤ String.length ext →
  path_Ext_from (base +:+ String "." ext) (String.length base + Datatypes.S k)
  = String "." ext.
Proof.
  intros Hext. induction k as [|k IH]; intros Hk.
  - replace (String.length base + 1) with (Datatypes.S (String.length base)) by lia.
    cbn [path_Ext_from].
    replace (String.length base) with (String.length base + 0) at 1 by lia.
    rewrite get_app_r. simpl.
    rewrite string_length_app.
    replace (String.length base + String.length (String "." ext)
             - String.length base) with (String.length (String "." ext)) by lia.
    apply substring_suffix.
  - replace (String.length base + Datatypes.S (Datatypes.S k))
      with (Datatypes.S (String.length base + Datatypes.S k)) by lia.
    cbn [path_Ext_from]. rewrite get_app_r. simpl.
    destruct (get_lt_Some ext k) as [c Hc]; [lia|]. rewrite Hc.
    destruct (Hext k c Hc) as [Hdot Hslash].
    destruct (Ascii.eqb_spec c "/"); [done|].
    destruct (Ascii.eqb_spec c "."); [done|].
    apply IH. lia.
Qed.

Lemma path_Ext_ext (base ext : string) :
  plain ext → path_Ext (base +:+ String "." ext) = String "." ext.
Proof.
  intros Hext. unfold path_Ext. rewrite string_length_app. simpl.
  by apply path_Ext_from_ext.
Qed.

Lemma path_Ext_dotless (s : string) : dotless s → path_Ext s = "".
Proof. apply path_Ext_from_dotless. Qed.

Lemma strings_TrimSuffix_app (s suffix : string) :
  strings_TrimSuffix (s +:+ suffix) suffix = s.
Proof.
  unfold strings_TrimSuffix, strings_HasSuffix. rewrite string_length_app.
  replace (String.length s + String.length suffix - String.length suffix)
    with (String.length s) by lia.
  rewrite substring_suffix, String.eqb_refl, substring_prefix.
  by destruct (_ <=? _) eqn:E; [|apply Nat.leb_gt in E; lia].
Qed.

Lemma trim_ext (base ext : string) :
  plain ext →
  strings_TrimSuffix (base +:+ String "." ext)
                     (path_Ext (base +:+ String "." ext)) = base.
Proof. intros Hext. rewrite path_Ext_ext by done. apply strings_TrimSuffix_app. Qed.

Lemma string_app_empty_r (s : string) : s +:+ "" = s.
Proof.
  induction s as [|c s IH]; [done|].
  change (String c s +:+ "") with (String c (s +:+ "")). by rewrite IH.
Qed.

Lemma trim_no_ext (name : string) :
  dotless name → strings_TrimSuffix name (path_Ext name) = name.
Proof.
  intros Hn. rewrite path_Ext_dotless by done.
  pose proof (strings_TrimSuffix_app name "") as H.
  by rewrite string_app_empty_r in H.
Qed.

(** *** Password resolution *)

Lemma getPasswordFromSecret_failure client namespace secretName passwordKey e :
  (getPasswordFromSecret client namespace secretName passwordKey).2 = Some e →
  (getPasswordFromSecret client namespace secretName passwordKey).1 = "".
Proof.
  unfold getPasswordFromSecret.
  destruct (SecretsGet client namespace secretName) as [secret|err]; [|done].
  by destruct (Secret.Data secret !! passwordKey).
Qed.

Lemma firstNonEmpty_last (s : string) :
  (if String.eqb s "" then "" else s) = s.
Proof. by destruct (String.eqb_spec s ""). Qed.

Lemma secret_resolvePassword_stages client secret name :
  PeriodicSecretChecker.resolvePassword client secret name =
  firstNonEmpty
    [stage client (Secret.Namespace secret) (Secret.Name secret) "password";
     stage client (Secret.Namespace secret) (Secret.Name secret +:+ "-password")
       (strings_TrimSuffix name (path_Ext name) +:+ ".password");
     stage client (Secret.Namespace secret) (Secret.Name secret +:+ "-password")
       (name +:+ ".password")].
Proof.
  unfold PeriodicSecretChecker.resolvePassword, stage. cbn [firstNonEmpty].
  destruct (getPasswordFromSecret client (Secret.Namespace secret)
              (Secret.Name secret) "password") as [password err].
  cbn [fst]. destruct (String.eqb password "") eqn:E1.
  - destruct (String.eqb _ "") eqn:E2.
    + by rewrite firstNonEmpty_last.
    + done.
  - by rewrite E1.
Qed.

Lemma configMap_resolvePassword_stages client configMap name :
  PeriodicConfigMapChecker.resolvePassword client configMap name =
  firstNonEmpty
    [stage client (ConfigMap.Namespace configMap)
       (ConfigMap.Name configMap +:+ "-password")
       (strings_TrimSuffix name (path_Ext name) +:+ ".password");
     stage client (ConfigMap.Namespace configMap)
       (ConfigMap.Name configMap +:+ "-password") (name +:+ ".password")].
Proof.
  unfold PeriodicConfigMapChecker.resolvePassword, stage. cbn [firstNonEmpty].
  destruct (getPasswordFromSecret client (ConfigMap.Namespace configMap)
              (ConfigMap.Name configMap +:+ "-password")
              (strings_TrimSuffix name (path_Ext name) +:+ ".password"))
    as [password err].
  cbn [fst]. destruct (String.eqb password "") eqn:E1; [|done].
  by rewrite firstNonEmpty_last.
Qed.

Lemma stage_present client namespace secretName passwordKey secret value :
  SecretsGet client namespace secretName = inl secret →
  Secret.Data secret !! passwordKey = Some value →
  stage client namespace secretName passwordKey = string_of_list_byte value.
Proof.
  intros Hget Hkey. unfold stage, getPasswordFromSecret.
  rewrite Hget. cbv beta iota. by rewrite Hkey.
Qed.

Lemma stage_absent client namespace secretName passwordKey secret :
  SecretsGet client namespace secretName = inl secret →
  Secret.Data secret !! passwordKey = @None bytes →
  stage client namespace secretName passwordKey = "".
Proof.
  intros Hget Hkey. unfold stage, getPasswordFromSecret.
  rewrite Hget. cbv beta iota. by rewrite Hkey.
Qed.

Lemma stage_agree client client' namespace secretName passwordKey :
  SecretsGet client namespace secretName = SecretsGet client' namespace secretName →
  stage client namespace secretName passwordKey =
  stage client' namespace secretName passwordKey.
Proof. intros Hget. unfold stage, getPasswordFromSecret. by rewrite Hget. Qed.

Lemma plain_crt : plain "crt".
Proof.
  intros i c. destruct i as [|[|[|i]]]; simpl; intros [= <-] || intros [=];
    by split.
Qed.

(** *** The merged ConfigMap data *)

Section FoldInsert.
Context {A B : Type} (f : A -> B).

Lemma foldl_insert_notin (l : list (string * A)) (acc : gmap string B) key :
  key ∉ l.*1 →
  foldl (λ (m : gmap string B) kv, <[kv.1 := f kv.2]> m) acc l !! key
  = acc !! key.
Proof.
  revert acc. induction l as [|[k v] l IH]; intros acc Hnotin; [done|].
  rewrite fmap_cons, not_elem_of_cons in Hnotin. destruct Hnotin as [Hne Hl].
  simpl. rewrite IH by done. by rewrite lookup_insert_ne.
Qed.

Lemma foldl_insert_in (l : list (string * A)) (acc : gmap string B) key v :
  NoDup l.*1 → (key, v) ∈ l →
  foldl (λ (m : gmap string B) kv, <[kv.1 := f kv.2]> m) acc l !! key
  = Some (f v).
Proof.
  revert acc. induction l as [|[k' v'] l IH]; intros acc Hnd Hin.
  - by apply elem_of_nil in Hin.
  - rewrite fmap_cons in Hnd. apply NoDup_cons in Hnd as [Hfresh Hnd].
    apply elem_of_cons in Hin as [[= <- <-]|Hin]; simpl.
    + rewrite foldl_insert_notin by done. by rewrite lookup_insert_eq.
    + by apply IH.
Qed.

End FoldInsert.

Lemma range_lookup_None (range : RangeFn) {A} (m : gmap string A) key :
  RangeContract range → m !! key = None → key ∉ (range A m).*1.
Proof.
  intros HR Hnone Hin. apply list_elem_of_fmap in Hin as ([k v] & -> & Hin).
  apply (range_elem_of range) in Hin; [|done]. simpl in Hnone. congruence.
Qed.

Lemma combinedMap_lookup (range : RangeFn) (configMap : ConfigMap.t) key :
  RangeContract range →
  PeriodicConfigMapChecker.combinedMap range configMap !! key =
  match ConfigMap.BinaryData configMap !! key with
  | Some binary => Some binary
  | None => list_byte_of_string <$> ConfigMap.Data configMap !! key
  end.
Proof.
  intros HR. unfold PeriodicConfigMapChecker.combinedMap.
  destruct (ConfigMap.BinaryData configMap !! key) as [binary|] eqn:Eb.
  - apply (foldl_insert_in (λ x, x)).
    + by apply range_NoDup_fst.
    + by apply range_elem_of.
  - rewrite (foldl_insert_notin (λ x, x)) by (by apply range_lookup_None).
    destruct (ConfigMap.Data configMap !! key) as [text|] eqn:Et; simpl.
    + apply (foldl_insert_in list_byte_of_string).
      * by apply range_NoDup_fst.
      * by apply range_elem_of.
    + rewrite (foldl_insert_notin list_byte_of_string)
        by (by apply range_lookup_None).
      apply lookup_empty.
Qed.

Lemma failedLists_pos {R} (List : string -> string -> list R + error)
    namespaces labelSelectors c :
  c ∈ combinations namespaces labelSelectors →
  listFails List c = true →
  0 < failedLists List namespaces labelSelectors.
Proof.
  intros Hin Hf. unfold failedLists.
  assert (c ∈ filter (λ c, listFails List c = true)
                     (combinations namespaces labelSelectors)) as Hc.
  { by apply list_elem_of_filter. }
  destruct (filter _ _); [by apply elem_of_nil in Hc | simpl; lia].
Qed.

(** *** The exporter *)

Section Exporter.
Import ConfigMapExporter.
Implicit Types decoder : bytes -> string -> list certMetric + error.
Implicit Types m : Metrics (gmap (list string) float64).
Implicit Types j : Metrics (list GaugeOp).

Lemma foldl_exportOne_journal keyName name ns serviceline mc j :
  foldl (exportOne keyName name ns serviceline) j mc =
  mkMetrics
    (ConfigMapExpirySeconds j ++
     ((λ c, SetOp (seriesKey keyName name ns serviceline c)
                  (durationUntilExpiry c)) <$> mc))
    (ConfigMapNotAfterTimestamp j ++
     ((λ c, SetOp (seriesKey keyName name ns serviceline c) (notAfter c))
        <$> mc)).
Proof.
  revert j. induction mc as [|c mc IH]; intros j; simpl.
  - rewrite !app_nil_r. by destruct j.
  - rewrite IH. simpl. by rewrite <- !app_assoc.
Qed.

Lemma foldl_exportOne_expiry keyName name ns serviceline mc m lvs :
  ConfigMapExpirySeconds (foldl (exportOne keyName name ns serviceline) m mc)
    !! lvs =
  lastValue (seriesKey keyName name ns serviceline) durationUntilExpiry lvs mc
            (ConfigMapExpirySeconds m !! lvs).
Proof.
  revert m. induction mc as [|c mc IH]; intros m; simpl; [done|].
  rewrite IH. simpl. f_equal. apply lookup_insert.
Qed.

Lemma foldl_exportOne_notAfter keyName name ns serviceline mc m lvs :
  ConfigMapNotAfterTimestamp (foldl (exportOne keyName name ns serviceline) m mc)
    !! lvs =
  lastValue (seriesKey keyName name ns serviceline) notAfter lvs mc
            (ConfigMapNotAfterTimestamp m !! lvs).
Proof.
  revert m. induction mc as [|c mc IH]; intros m; simpl; [done|].
  rewrite IH. simpl. f_equal. apply lookup_insert.
Qed.

Lemma lastValue_keeps_or_sets key val lvs mc :
  (∀ old, lastValue key val lvs mc old = old)
  ∨ (∃ v, ∀ old, lastValue key val lvs mc old = Some v).
Proof.
  induction mc as [|c mc IH]; simpl; [by left|].
  destruct IH as [Hkeep|[v Hset]].
  - destruct (decide (key c = lvs)).
    + right. exists (val c). intros old. by rewrite Hkeep.
    + left. intros old. by rewrite Hkeep.
  - right. exists v. intros old. by rewrite Hset.
Qed.

Lemma lastValue_elem key val mc old c :
  c ∈ mc → is_Some (lastValue key val (key c) mc old).
Proof.
  revert old. induction mc as [|c' mc IH]; intros old Hin.
  - by apply elem_of_nil in Hin.
  - simpl. apply elem_of_cons in Hin as [<-|Hin].
    + rewrite decide_True by done.
      destruct (lastValue_keeps_or_sets key val (key c) mc) as [Hk|[v Hs]].
      * rewrite Hk. by eexists.
      * rewrite Hs. by eexists.
    + by apply IH.
Qed.


Lemma lastValue_other key val lvs mc old :
  (∀ c, c ∈ mc → key c ≠ lvs) → lastValue key val lvs mc old = old.
Proof.
  revert old. induction mc as [|c mc IH]; intros old Hother; simpl; [done|].
  rewrite decide_False by (apply Hother; by left).
  apply IH. intros c' Hc'. apply Hother. by right.
Qed.

Lemma metrics_eq m m' :
  (∀ lvs, ConfigMapExpirySeconds m !! lvs = ConfigMapExpirySeconds m' !! lvs) →
  (∀ lvs, ConfigMapNotAfterTimestamp m !! lvs
          = ConfigMapNotAfterTimestamp m' !! lvs) →
  m = m'.
Proof.
  destruct m as [e n], m' as [e' n']. simpl. intros He Hn.
  f_equal; by apply map_eq.
Qed.

Lemma Overwrites_id : Overwrites (λ m, m).
Proof. intros lvs. split; by left. Qed.

Lemma Overwrites_compose f g :
  Overwrites f → Overwrites g → Overwrites (λ m, g (f m)).
Proof.
  intros Hf Hg lvs. destruct (Hf lvs) as [Hfe Hfn], (Hg lvs) as [Hge Hgn].
  split.
  - destruct Hge as [Hk|[v Hs]]; [|right; exists v; intros m; apply Hs].
    destruct Hfe as [Hk'|[v Hs']].
    + left. intros m. by rewrite Hk, Hk'.
    + right. exists v. intros m. by rewrite Hk, Hs'.
  - destruct Hgn as [Hk|[v Hs]]; [|right; exists v; intros m; apply Hs].
    destruct Hfn as [Hk'|[v Hs']].
    + left. intros m. by rewrite Hk, Hk'.
    + right. exists v. intros m. by rewrite Hk, Hs'.
Qed.

Lemma Overwrites_exportWith decoder a : Overwrites (exportWith decoder a).
Proof.
  unfold exportWith, ExportMetrics.
  destruct (decoder (argData a) (argPassword a)) as [mc|e]; simpl.
  - intros lvs. split.
    + destruct (lastValue_keeps_or_sets
                  (seriesKey (argKeyName a) (argName a) (argNamespace a)
                     (default "" (argLabels a !! "serviceline")))
                  durationUntilExpiry lvs mc) as [Hk|[v Hs]].
      * left. intros m. by rewrite foldl_exportOne_expiry, Hk.
      * right. exists (Some v). intros m. by rewrite foldl_exportOne_expiry, Hs.
    + destruct (lastValue_keeps_or_sets
                  (seriesKey (argKeyName a) (argName a) (argNamespace a)
                     (default "" (argLabels a !! "serviceline")))
                  notAfter lvs mc) as [Hk|[v Hs]].
      * left. intros m. by rewrite foldl_exportOne_notAfter, Hk.
      * right. exists (Some v). intros m.
        by rewrite foldl_exportOne_notAfter, Hs.
  - apply Overwrites_id.
Qed.

Lemma Overwrites_exportAll decoder l : Overwrites (exportAll decoder l).
Proof.
  unfold exportAll. induction l as [|a l IH] using rev_ind.
  - apply Overwrites_id.
  - eapply (Overwrites_compose _ (exportWith decoder a)) in IH;
      [|apply Overwrites_exportWith].
    intros lvs. destruct (IH lvs) as [He Hn].
    split; [destruct He as [Hk|[v Hs]] | destruct Hn as [Hk|[v Hs]]].
    + left. intros m. rewrite foldl_app. apply Hk.
    + right. exists v. intros m. rewrite foldl_app. apply Hs.
    + left. intros m. rewrite foldl_app. apply Hk.
    + right. exists v. intros m. rewrite foldl_app. apply Hs.
Qed.

Lemma Overwrites_absorbs f g m :
  Overwrites f → Overwrites g → f (g (f m)) = f (g m).
Proof.
  intros Hf Hg. apply metrics_eq; intros lvs.
  - destruct (Hf lvs) as [[Hk|[v Hs]] _]; [|by rewrite !Hs].
    rewrite !Hk. destruct (Hg lvs) as [[Hk'|[v Hs']] _]; [|by rewrite !Hs'].
    by rewrite !Hk', Hk.
  - destruct (Hf lvs) as [_ [Hk|[v Hs]]]; [|by rewrite !Hs].
    rewrite !Hk. destruct (Hg lvs) as [_ [Hk'|[v Hs']]]; [|by rewrite !Hs'].
    by rewrite !Hk', Hk.
Qed.

End Exporter.

Lemma length_list_bind {A B} (f : A -> list B) (l : list A) :
  length (l ≫= f) = sum_list_with (λ x, length (f x)) l.
Proof.
  induction l as [|x l IH]; [done|].
  by rewrite bind_cons, length_app, IH.
Qed.

(** * The model on the example cluster *)

Example path_Ext_examples :
  path_Ext "tls.crt" = ".crt" ∧ path_Ext "a.b.c" = ".c"
  ∧ path_Ext "noext" = "" ∧ path_Ext "a.b/c" = "" ∧ path_Ext ".hidden" = ".hidden".
Proof. repeat split; reflexivity. Qed.

Example passwordKey_examples :
  strings_TrimSuffix "tls.crt" (path_Ext "tls.crt") +:+ ".password"
    = "tls.password"
  ∧ strings_TrimSuffix "keystore" (path_Ext "keystore") +:+ ".password"
    = "keystore.password".
Proof. split; reflexivity. Qed.

Example Match_examples :
  Example.Match "*.crt" "tls.crt" = (true, None)
  ∧ Example.Match "*.crt" "config.txt" = (false, None)
  ∧ Example.Match "[" "tls.crt" = (false, Some "syntax error in pattern").
Proof. repeat split; reflexivity. Qed.

(** One tick of the Secret checker: both label selectors list [tls-1], so it
    is exported twice, with the password of [tls-1-password]; the two failed
    list calls on [kube-system] and the malformed include pattern, met once
    per visited entry, are counted. *)
Example secret_tick_calls :
  calls (PeriodicSecretChecker.tick Example.Match Example.range
           Example.secretChecker Example.client Example.world0).2
  = [PeriodicSecretChecker.ResetMetricsCall;
     PeriodicSecretChecker.ExportMetricsCall Example.certBytes "tls.crt"
       "tls-1" "default" "s3cret" {[ "serviceline" := "payments" ]};
     PeriodicSecretChecker.ExportMetricsCall Example.certBytes "tls.crt"
       "tls-1" "default" "s3cret" {[ "serviceline" := "payments" ]}].
Proof. vm_compute. reflexivity. Qed.

Example secret_tick_errors :
  ErrorTotal (PeriodicSecretChecker.tick Example.Match Example.range
                Example.secretChecker Example.client Example.world0).2 = 6.
Proof. vm_compute. reflexivity. Qed.

Example secret_tick_series :
  ConfigMapExporter.ConfigMapExpirySeconds
    (sink (PeriodicSecretChecker.tick Example.Match Example.range
             Example.secretChecker Example.client Example.world1).2)
  = {[ ["tls.crt"; "ca"; "tls-1"; "tls-1"; "default"; "payments"]
       := 86400%float ]}.
Proof. vm_compute. reflexivity. Qed.

(** One tick of the ConfigMap checker: of the merged entries of [ca-bundle]
    only [ca.crt] is exported, with its binary value and no password. *)
Example configMap_tick_calls :
  calls (PeriodicConfigMapChecker.tick Example.Match Example.range
           Example.configMapChecker Example.client Example.world0).2
  = [PeriodicConfigMapChecker.ResetMetricsCall;
     PeriodicConfigMapChecker.ExportMetricsCall Example.certBytes "ca.crt"
       "ca-bundle" "default" ""].
Proof. vm_compute. reflexivity. Qed.

Example configMap_tick_errors :
  ErrorTotal (PeriodicConfigMapChecker.tick Example.Match Example.range
                Example.configMapChecker Example.client Example.world0).2 = 1.
Proof. vm_compute. reflexivity. Qed.

(** *** What handling an included entry does *)

Lemma secret_dataBody_included {St} (Match : MatchFn)
    (p : PeriodicSecretChecker.t St) client secret name data w :
  globFlag Match (PeriodicSecretChecker.includeSecretsDataGlobs p) name false
  && negb (globFlag Match (PeriodicSecretChecker.excludeSecretsDataGlobs p)
                    name false) = true →
  calls (PeriodicSecretChecker.dataBody Match p client secret (name, data) w).2
  = calls w ++
    [PeriodicSecretChecker.ExportMetricsCall data name (Secret.Name secret)
       (Secret.Namespace secret)
       (PeriodicSecretChecker.resolvePassword client secret name)
       (Secret.Labels secret)]
  ∧ sink (PeriodicSecretChecker.dataBody Match p client secret (name, data) w).2
    = (PeriodicSecretChecker.ExportMetrics (PeriodicSecretChecker.exporter p)
         data name (Secret.Name secret) (Secret.Namespace secret)
         (PeriodicSecretChecker.resolvePassword client secret name)
         (Secret.Labels secret) (sink w)).2.
Proof.
  intros Hinc. rewrite secret_dataBody_run. cbn [fst snd]. rewrite Hinc.
  rewrite bind_run. unfold PeriodicSecretChecker.callExportMetrics.
  cbn [sink calls].
  by destruct (PeriodicSecretChecker.ExportMetrics _ _ _ _ _ _ _ _)
    as [[e|] s].
Qed.

Lemma secret_dataBody_excluded {St} (Match : MatchFn)
    (p : PeriodicSecretChecker.t St) client secret name data w :
  globFlag Match (PeriodicSecretChecker.includeSecretsDataGlobs p) name false
  && negb (globFlag Match (PeriodicSecretChecker.excludeSecretsDataGlobs p)
                    name false) = false →
  calls (PeriodicSecretChecker.dataBody Match p client secret (name, data) w).2
  = calls w
  ∧ sink (PeriodicSecretChecker.dataBody Match p client secret (name, data) w).2
    = sink w.
Proof.
  intros Hinc. rewrite secret_dataBody_run. cbn [fst snd]. by rewrite Hinc.
Qed.

Lemma configMap_dataBody_included {St} (Match : MatchFn)
    (p : PeriodicConfigMapChecker.t St) client configMap name data w :
  globFlag Match (PeriodicConfigMapChecker.includeConfigMapsDataGlobs p)
           name false
  && negb (globFlag Match
             (PeriodicConfigMapChecker.excludeConfigMapsDataGlobs p)
             name false) = true →
  calls (PeriodicConfigMapChecker.dataBody Match p client configMap
           (name, data) w).2
  = calls w ++
    [PeriodicConfigMapChecker.ExportMetricsCall data name
       (ConfigMap.Name configMap) (ConfigMap.Namespace configMap)
       (PeriodicConfigMapChecker.resolvePassword client configMap name)]
  ∧ sink (PeriodicConfigMapChecker.dataBody Match p client configMap
            (name, data) w).2
    = (PeriodicConfigMapChecker.ExportMetrics
         (PeriodicConfigMapChecker.exporter p) data name
         (ConfigMap.Name configMap) (ConfigMap.Namespace configMap)
         (PeriodicConfigMapChecker.resolvePassword client configMap name)
         (sink w)).2.
Proof.
  intros Hinc. rewrite configMap_dataBody_run. cbn [fst snd]. rewrite Hinc.
  rewrite bind_run. unfold PeriodicConfigMapChecker.callExportMetrics.
  cbn [sink calls].
  by destruct (PeriodicConfigMapChecker.ExportMetrics _ _ _ _ _ _ _)
    as [[e|] s].
Qed.

Lemma secret_tick_calls_from_candidates {St} (Match : MatchFn) (range : RangeFn)
    (p : PeriodicSecretChecker.t St) client w :
  ∃ made,
    calls (PeriodicSecretChecker.tick Match range p client w).2
    = calls w ++ PeriodicSecretChecker.ResetMetricsCall :: made
    ∧ ∀ call, call ∈ made →
        ∃ secret name data,
          secret ∈ candidates (SecretsList client)
                     (PeriodicSecretChecker.namespaces p)
                     (PeriodicSecretChecker.labelSelectors p)
          ∧ (name, data) ∈ range _ (Secret.Data secret)
          ∧ call = PeriodicSecretChecker.ExportMetricsCall data name
                     (Secret.Name secret) (Secret.Namespace secret)
                     (PeriodicSecretChecker.resolvePassword client secret name)
                     (Secret.Labels secret).
Proof.
  exists (secretTickExports Match range p client).
  split; [apply secret_tick_emits|].
  intros call Hin. unfold secretTickExports in Hin.
  apply list_elem_of_bind in Hin as (secret & Hin & Hsecret).
  unfold secretExports in Hin.
  destruct (_ && _); [|by apply elem_of_nil in Hin].
  apply list_elem_of_bind in Hin as ([name data] & Hin & Hentry).
  unfold secretEntryExports in Hin. cbn [fst snd] in Hin.
  destruct (_ && _); [|by apply elem_of_nil in Hin].
  apply list_elem_of_singleton in Hin as ->. by exists secret, name, data.
Qed.

Lemma configMap_tick_calls_from_candidates {St} (Match : MatchFn)
    (range : RangeFn) (p : PeriodicConfigMapChecker.t St) client w :
  ∃ made,
    calls (PeriodicConfigMapChecker.tick Match range p client w).2
    = calls w ++ PeriodicConfigMapChecker.ResetMetricsCall :: made
    ∧ ∀ call, call ∈ made →
        ∃ configMap name data,
          configMap ∈ candidates (ConfigMapsList client)
                        (PeriodicConfigMapChecker.namespaces p)
                        (PeriodicConfigMapChecker.labelSelectors p)
          ∧ (name, data)
            ∈ range _ (PeriodicConfigMapChecker.combinedMap range configMap)
          ∧ call = PeriodicConfigMapChecker.ExportMetricsCall data name
                     (ConfigMap.Name configMap) (ConfigMap.Namespace configMap)
                     (PeriodicConfigMapChecker.resolvePassword client configMap
                        name).
Proof.
  exists (configMapTickExports Match range p client).
  split; [apply configMap_tick_emits|].
  intros call Hin. unfold configMapTickExports in Hin.
  apply list_elem_of_bind in Hin as (configMap & Hin & Hcm).
  unfold configMapExports in Hin.
  destruct (annotationFilter _ _); [|by apply elem_of_nil in Hin].
  apply list_elem_of_bind in Hin as ([name data] & Hin & Hentry).
  unfold configMapEntryExports in Hin. cbn [fst snd] in Hin.
  destruct (_ && _); [|by apply elem_of_nil in Hin].
  apply list_elem_of_singleton in Hin as ->. by exists configMap, name, data.
Qed.


(** * The claims *)

(** C1.  In every period of either checker loop [ResetMetrics] is called
    exactly once and before every [ExportMetrics] call of that period: the
    calls of a run are, period by period, one [ResetMetricsCall] followed by
    export calls only.  When [ResetMetrics] forgets what was published, the
    metrics after a period are those the period alone produces, whatever the
    earlier periods had left. *)
Theorem C1_reset_once_then_exports :
  (∀ St (Match : MatchFn) (range : RangeFn) (p : PeriodicSecretChecker.t St),
     (∀ clients w,
        calls (PeriodicSecretChecker.StartChecking Match range p clients w).2 =
        calls w ++
        (client ← clients;
         PeriodicSecretChecker.ResetMetricsCall
           :: secretTickExports Match range p client))
     ∧ (∀ client,
          PeriodicSecretChecker.ResetMetricsCall
            ∉ secretTickExports Match range p client)
     ∧ (Forgets (PeriodicSecretChecker.ResetMetrics
                   (PeriodicSecretChecker.exporter p)) →
        ∀ clients client w w0,
          sink (PeriodicSecretChecker.StartChecking Match range p
                  (clients ++ [client]) w).2 =
          sink (PeriodicSecretChecker.tick Match range p client w0).2))
  ∧
  (∀ St (Match : MatchFn) (range : RangeFn)
     (p : PeriodicConfigMapChecker.t St),
     (∀ clients w,
        calls (PeriodicConfigMapChecker.StartChecking Match range p clients w).2 =
        calls w ++
        (client ← clients;
         PeriodicConfigMapChecker.ResetMetricsCall
           :: configMapTickExports Match range p client))
     ∧ (∀ client,
          PeriodicConfigMapChecker.ResetMetricsCall
            ∉ configMapTickExports Match range p client)
     ∧ (Forgets (PeriodicConfigMapChecker.ResetMetrics
                   (PeriodicConfigMapChecker.exporter p)) →
        ∀ clients client w w0,
          sink (PeriodicConfigMapChecker.StartChecking Match range p
                  (clients ++ [client]) w).2 =
          sink (PeriodicConfigMapChecker.tick Match range p client w0).2)).
Proof.
  split; intros St Match range p; repeat split.
  - intros clients w. apply secret_StartChecking_emits.
  - apply secretTickExports_no_reset.
  - intros HR clients client w w0.
    unfold PeriodicSecretChecker.StartChecking. rewrite forEach_snoc.
    by apply secret_tick_forgets.
  - intros clients w. apply configMap_StartChecking_emits.
  - apply configMapTickExports_no_reset.
  - intros HR clients client w w0.
    unfold PeriodicConfigMapChecker.StartChecking. rewrite forEach_snoc.
    by apply configMap_tick_forgets.
Qed.

(** The stale series of [Example.world1] are gone after one period of either
    checker. *)
Lemma C1_witness :
  sink (PeriodicSecretChecker.StartChecking Example.Match Example.range
          Example.secretChecker ([] ++ [Example.client]) Example.world1).2 =
  sink (PeriodicSecretChecker.tick Example.Match Example.range
          Example.secretChecker Example.client Example.world0).2
  ∧
  sink (PeriodicConfigMapChecker.StartChecking Example.Match Example.range
          Example.configMapChecker ([] ++ [Example.client]) Example.world1).2 =
  sink (PeriodicConfigMapChecker.tick Example.Match Example.range
          Example.configMapChecker Example.client Example.world0).2.
Proof.
  split.
  - apply (proj1 C1_reset_once_then_exports). intros s s'. reflexivity.
  - apply (proj2 C1_reset_once_then_exports). intros s s'. reflexivity.
Defined.

(** C2.  For a resource that passed the resource-level filters, the calls made
    while its entries are visited contain an [ExportMetrics] call for the
    entry [name] iff [name] matches at least one include pattern and no
    exclude pattern; with an empty include list no call is made at all. *)
Theorem C2_entry_exported_iff (Match : MatchFn) (range : RangeFn) :
  MatchContract Match → RangeContract range →
  (∀ St (p : PeriodicSecretChecker.t St) client secret name data w,
     PeriodicSecretChecker.typeFilter
       (PeriodicSecretChecker.includeSecretsTypes p) (Secret.Type_ secret)
       = true →
     annotationFilter (PeriodicSecretChecker.annotationSelectors p)
                      (Secret.Annotations secret) = true →
     Secret.Data secret !! name = Some data →
     ∃ made,
       calls (PeriodicSecretChecker.secretBody Match range p client secret w).2
       = calls w ++ made
       ∧ ((∃ password,
             PeriodicSecretChecker.ExportMetricsCall data name
               (Secret.Name secret) (Secret.Namespace secret) password
               (Secret.Labels secret) ∈ made)
          ↔ matchesSome Match (PeriodicSecretChecker.includeSecretsDataGlobs p)
                        name
            ∧ ¬ matchesSome Match
                  (PeriodicSecretChecker.excludeSecretsDataGlobs p) name)
       ∧ (PeriodicSecretChecker.includeSecretsDataGlobs p = [] → made = []))
  ∧
  (∀ St (p : PeriodicConfigMapChecker.t St) client configMap name data w,
     annotationFilter (PeriodicConfigMapChecker.annotationSelectors p)
                      (ConfigMap.Annotations configMap) = true →
     PeriodicConfigMapChecker.combinedMap range configMap !! name = Some data →
     ∃ made,
       calls (PeriodicConfigMapChecker.configMapBody Match range p client
                configMap w).2
       = calls w ++ made
       ∧ ((∃ password,
             PeriodicConfigMapChecker.ExportMetricsCall data name
               (ConfigMap.Name configMap) (ConfigMap.Namespace configMap)
               password ∈ made)
          ↔ matchesSome Match
              (PeriodicConfigMapChecker.includeConfigMapsDataGlobs p) name
            ∧ ¬ matchesSome Match
                  (PeriodicConfigMapChecker.excludeConfigMapsDataGlobs p) name)
       ∧ (PeriodicConfigMapChecker.includeConfigMapsDataGlobs p = [] →
          made = [])).
Proof.
  intros HM HR. split.
  - intros St p client secret name data w Ht Ha Hdata.
    exists (secretExports Match range p client secret).
    split; [apply secret_body_emits|].
    unfold secretExports. rewrite Ht, Ha. cbn [andb]. split.
    + rewrite <- included_iff by done. split.
      * intros (password & Hin). apply list_elem_of_bind in Hin
          as ([name' data'] & Hin & _).
        unfold secretEntryExports in Hin. cbn [fst snd] in Hin.
        destruct (_ && _) eqn:E in Hin; [|by apply elem_of_nil in Hin].
        apply list_elem_of_singleton in Hin. by simplify_eq.
      * intros Hinc. eexists. apply list_elem_of_bind. exists (name, data).
        split; [|by apply range_elem_of].
        unfold secretEntryExports. cbn [fst snd]. rewrite Hinc. by left.
    + intros Hnil. unfold secretEntryExports. rewrite Hnil.
      induction (range _ (Secret.Data secret)) as [|e es IH]; [done|].
      by rewrite bind_cons, IH.
  - intros St p client configMap name data w Ha Hdata.
    exists (configMapExports Match range p client configMap).
    split; [apply configMap_body_emits|].
    unfold configMapExports. rewrite Ha. split.
    + rewrite <- included_iff by done. split.
      * intros (password & Hin). apply list_elem_of_bind in Hin
          as ([name' data'] & Hin & _).
        unfold configMapEntryExports in Hin. cbn [fst snd] in Hin.
        destruct (_ && _) eqn:E in Hin; [|by apply elem_of_nil in Hin].
        apply list_elem_of_singleton in Hin. by simplify_eq.
      * intros Hinc. eexists. apply list_elem_of_bind. exists (name, data).
        split; [|by apply range_elem_of].
        unfold configMapEntryExports. cbn [fst snd]. rewrite Hinc. by left.
    + intros Hnil. unfold configMapEntryExports. rewrite Hnil.
      induction (range _ (PeriodicConfigMapChecker.combinedMap range configMap))
        as [|e es IH]; [done|].
      by rewrite bind_cons, IH.
Qed.

(** [tls.crt] of [tls-1] matches [*.crt] and not [*.key]; the malformed
    pattern in front of [*.crt] does not change that. *)
Lemma C2_witness :
  MatchContract Example.Match ∧ RangeContract Example.range ∧
  ∃ made,
    calls (PeriodicSecretChecker.secretBody Example.Match Example.range
             Example.secretChecker Example.client Example.tls1
             Example.world0).2
    = calls (Example.world0 (Call:=PeriodicSecretChecker.Call)) ++ made
    ∧ ((∃ password,
          PeriodicSecretChecker.ExportMetricsCall Example.certBytes "tls.crt"
            (Secret.Name Example.tls1) (Secret.Namespace Example.tls1) password
            (Secret.Labels Example.tls1) ∈ made)
       ↔ matchesSome Example.Match
           (PeriodicSecretChecker.includeSecretsDataGlobs Example.secretChecker)
           "tls.crt"
         ∧ ¬ matchesSome Example.Match
               (PeriodicSecretChecker.excludeSecretsDataGlobs
                  Example.secretChecker) "tls.crt")
    ∧ (PeriodicSecretChecker.includeSecretsDataGlobs Example.secretChecker = []
       → made = []).
Proof.
  split; [apply Example_Match_contract|].
  split; [apply Example_range_contract|].
  apply (proj1 (C2_entry_exported_iff Example.Match Example.range
                  Example_Match_contract Example_range_contract));
    vm_compute; reflexivity.
Defined.

(** C3.  The annotation filter lets a resource through iff the selector list
    is empty or some selector is a key of the resource's annotations; the
    values of the annotations play no part.  A resource the filter rejects is
    skipped by either checker; one it lets through (and, for a Secret, whose
    type is wanted) has its entries visited. *)
Theorem C3_annotation_filter (selectors : list string)
    (annotations : gmap string string) :
  (annotationFilter selectors annotations = true ↔
     selectors = [] ∨
     ∃ selector, selector ∈ selectors ∧ is_Some (annotations !! selector))
  ∧ (∀ annotations' : gmap string string,
       dom annotations' = dom annotations →
       annotationFilter selectors annotations' =
       annotationFilter selectors annotations)
  ∧ (∀ St (Match : MatchFn) (range : RangeFn) (p : PeriodicSecretChecker.t St)
       client secret w,
       PeriodicSecretChecker.annotationSelectors p = selectors →
       Secret.Annotations secret = annotations →
       PeriodicSecretChecker.secretBody Match range p client secret w =
       if annotationFilter selectors annotations
          && PeriodicSecretChecker.typeFilter
               (PeriodicSecretChecker.includeSecretsTypes p)
               (Secret.Type_ secret)
       then forEach (PeriodicSecretChecker.dataBody Match p client secret)
                    (range _ (Secret.Data secret)) w
       else (tt, w))
  ∧ (∀ St (Match : MatchFn) (range : RangeFn)
       (p : PeriodicConfigMapChecker.t St) client configMap w,
       PeriodicConfigMapChecker.annotationSelectors p = selectors →
       ConfigMap.Annotations configMap = annotations →
       PeriodicConfigMapChecker.configMapBody Match range p client configMap w =
       if annotationFilter selectors annotations
       then forEach (PeriodicConfigMapChecker.dataBody Match p client configMap)
              (range _ (PeriodicConfigMapChecker.combinedMap range configMap)) w
       else (tt, w)).
Proof.
  split; [apply annotationFilter_spec|]. split; [|split].
  - intros annotations' Hdom. unfold annotationFilter.
    destruct (0 <? length selectors); [|done]. by apply annotationLoop_dom.
  - intros St Match range p client secret w <- <-.
    unfold PeriodicSecretChecker.secretBody.
    destruct (PeriodicSecretChecker.typeFilter _ _);
      by destruct (annotationFilter _ _).
  - intros St Match range p client configMap w <- <-.
    unfold PeriodicConfigMapChecker.configMapBody.
    by destruct (annotationFilter _ _).
Qed.

(** [tls-1] carries the annotation [cert-exporter/scan] (with value [no]) and
    is let through by the selector of that name. *)
Lemma C3_witness :
  annotationFilter ["cert-exporter/scan"] (Secret.Annotations Example.tls1)
  = true
  ∧ annotationFilter ["cert-exporter/scan"] {[ "cert-exporter/scan" := "yes" ]}
    = annotationFilter ["cert-exporter/scan"] (Secret.Annotations Example.tls1).
Proof.
  split.
  - apply (proj1 (C3_annotation_filter _ _)). right.
    exists "cert-exporter/scan". split; [by left | by eexists].
  - apply (proj1 (proj2 (C3_annotation_filter _ _))). by vm_compute.
Defined.

(** C4.  The password of an exported Secret entry is the first non-empty one
    of: key [password] of the Secret of that name, key
    [<name without extension>.password] of the Secret [<resource>-password],
    key [<name>.password] of that Secret; the empty string if there is none.
    A failed lookup counts as empty.  For a ConfigMap entry the last two
    stages alone are used.  Handling an included entry calls [ExportMetrics]
    once, with the password so resolved, and every [ExportMetrics] call of a
    tick carries the password so resolved for its entry. *)
Theorem C4_password_precedence (client : Client) :
  (∀ secret name,
     PeriodicSecretChecker.resolvePassword client secret name =
     firstNonEmpty
       [stage client (Secret.Namespace secret) (Secret.Name secret) "password";
        stage client (Secret.Namespace secret)
          (Secret.Name secret +:+ "-password")
          (strings_TrimSuffix name (path_Ext name) +:+ ".password");
        stage client (Secret.Namespace secret)
          (Secret.Name secret +:+ "-password") (name +:+ ".password")])
  ∧ (∀ configMap name,
       PeriodicConfigMapChecker.resolvePassword client configMap name =
       firstNonEmpty
         [stage client (ConfigMap.Namespace configMap)
            (ConfigMap.Name configMap +:+ "-password")
            (strings_TrimSuffix name (path_Ext name) +:+ ".password");
          stage client (ConfigMap.Namespace configMap)
            (ConfigMap.Name configMap +:+ "-password") (name +:+ ".password")])
  ∧ (∀ namespace secretName passwordKey e,
       (getPasswordFromSecret client namespace secretName passwordKey).2
       = Some e →
       stage client namespace secretName passwordKey = "")
  ∧ (∀ base ext,
       plain ext →
       strings_TrimSuffix (base +:+ String "." ext)
                          (path_Ext (base +:+ String "." ext)) = base)
  ∧ (∀ name, dotless name → strings_TrimSuffix name (path_Ext name) = name)
  ∧ (∀ St (Match : MatchFn) (p : PeriodicSecretChecker.t St) secret name data w,
       globFlag Match (PeriodicSecretChecker.includeSecretsDataGlobs p)
                name false
       && negb (globFlag Match
                  (PeriodicSecretChecker.excludeSecretsDataGlobs p) name false)
       = true →
       let password :=
         firstNonEmpty
           [stage client (Secret.Namespace secret) (Secret.Name secret)
                  "password";
            stage client (Secret.Namespace secret)
                  (Secret.Name secret +:+ "-password")
                  (strings_TrimSuffix name (path_Ext name) +:+ ".password");
            stage client (Secret.Namespace secret)
                  (Secret.Name secret +:+ "-password") (name +:+ ".password")] in
       calls (PeriodicSecretChecker.dataBody Match p client secret
                (name, data) w).2
       = calls w ++
         [PeriodicSecretChecker.ExportMetricsCall data name
            (Secret.Name secret) (Secret.Namespace secret) password
            (Secret.Labels secret)]
       ∧ sink (PeriodicSecretChecker.dataBody Match p client secret
                 (name, data) w).2
         = (PeriodicSecretChecker.ExportMetrics
              (PeriodicSecretChecker.exporter p) data name (Secret.Name secret)
              (Secret.Namespace secret) password (Secret.Labels secret)
              (sink w)).2)
  ∧ (∀ St (Match : MatchFn) (p : PeriodicConfigMapChecker.t St) configMap
       name data w,
       globFlag Match (PeriodicConfigMapChecker.includeConfigMapsDataGlobs p)
                name false
       && negb (globFlag Match
                  (PeriodicConfigMapChecker.excludeConfigMapsDataGlobs p)
                  name false)
       = true →
       let password :=
         firstNonEmpty
           [stage client (ConfigMap.Namespace configMap)
                  (ConfigMap.Name configMap +:+ "-password")
                  (strings_TrimSuffix name (path_Ext name) +:+ ".password");
            stage client (ConfigMap.Namespace configMap)
                  (ConfigMap.Name configMap +:+ "-password")
                  (name +:+ ".password")] in
       calls (PeriodicConfigMapChecker.dataBody Match p client configMap
                (name, data) w).2
       = calls w ++
         [PeriodicConfigMapChecker.ExportMetricsCall data name
            (ConfigMap.Name configMap) (ConfigMap.Namespace configMap)
            password]
       ∧ sink (PeriodicConfigMapChecker.dataBody Match p client configMap
                 (name, data) w).2
         = (PeriodicConfigMapChecker.ExportMetrics
              (PeriodicConfigMapChecker.exporter p) data name
              (ConfigMap.Name configMap) (ConfigMap.Namespace configMap)
              password (sink w)).2)
  ∧ (∀ St (Match : MatchFn) (range : RangeFn)
       (p : PeriodicSecretChecker.t St) w,
       ∃ made,
         calls (PeriodicSecretChecker.tick Match range p client w).2
         = calls w ++ PeriodicSecretChecker.ResetMetricsCall :: made
         ∧ ∀ call, call ∈ made →
             ∃ secret name data,
               secret ∈ candidates (SecretsList client)
                          (PeriodicSecretChecker.namespaces p)
                          (PeriodicSecretChecker.labelSelectors p)
               ∧ (name, data) ∈ range _ (Secret.Data secret)
               ∧ call = PeriodicSecretChecker.ExportMetricsCall data name
                   (Secret.Name secret) (Secret.Namespace secret)
                   (firstNonEmpty
                      [stage client (Secret.Namespace secret)
                             (Secret.Name secret) "password";
                       stage client (Secret.Namespace secret)
                             (Secret.Name secret +:+ "-password")
                             (strings_TrimSuffix name (path_Ext name)
                              +:+ ".password");
                       stage client (Secret.Namespace secret)
                             (Secret.Name secret +:+ "-password")
                             (name +:+ ".password")])
                   (Secret.Labels secret))
  ∧ (∀ St (Match : MatchFn) (range : RangeFn)
       (p : PeriodicConfigMapChecker.t St) w,
       ∃ made,
         calls (PeriodicConfigMapChecker.tick Match range p client w).2
         = calls w ++ PeriodicConfigMapChecker.ResetMetricsCall :: made
         ∧ ∀ call, call ∈ made →
             ∃ configMap name data,
               configMap ∈ candidates (ConfigMapsList client)
                             (PeriodicConfigMapChecker.namespaces p)
                             (PeriodicConfigMapChecker.labelSelectors p)
               ∧ (name, data)
                 ∈ range _ (PeriodicConfigMapChecker.combinedMap range
                              configMap)
               ∧ call = PeriodicConfigMapChecker.ExportMetricsCall data name
                   (ConfigMap.Name configMap) (ConfigMap.Namespace configMap)
                   (firstNonEmpty
                      [stage client (ConfigMap.Namespace configMap)
                             (ConfigMap.Name configMap +:+ "-password")
                             (strings_TrimSuffix name (path_Ext name)
                              +:+ ".password");
                       stage client (ConfigMap.Namespace configMap)
                             (ConfigMap.Name configMap +:+ "-password")
                             (name +:+ ".password")])).
Proof.
  split; [apply secret_resolvePassword_stages|].
  split; [apply configMap_resolvePassword_stages|].
  split; [apply getPasswordFromSecret_failure|].
  split; [apply trim_ext|].
  split; [apply trim_no_ext|].
  split; [|split; [|split]].
  - intros St Match p secret name data w Hinc. cbv zeta.
    rewrite <- secret_resolvePassword_stages.
    by apply secret_dataBody_included.
  - intros St Match p configMap name data w Hinc. cbv zeta.
    rewrite <- configMap_resolvePassword_stages.
    by apply configMap_dataBody_included.
  - intros St Match range p w.
    destruct (secret_tick_calls_from_candidates Match range p client w)
      as (made & Hcalls & Hmade).
    exists made. split; [exact Hcalls|]. intros call Hin.
    destruct (Hmade call Hin) as (secret & name & data & Hs & He & ->).
    exists secret, name, data.
    by rewrite <- secret_resolvePassword_stages.
  - intros St Match range p w.
    destruct (configMap_tick_calls_from_candidates Match range p client w)
      as (made & Hcalls & Hmade).
    exists made. split; [exact Hcalls|]. intros call Hin.
    destruct (Hmade call Hin) as (configMap & name & data & Hs & He & ->).
    exists configMap, name, data.
    by rewrite <- configMap_resolvePassword_stages.
Qed.

(** In the example cluster [tls-1] holds no [password] entry, and
    [tls-1-password] holds both [tls.password] and [tls.crt.password]: the
    former wins, and it is the password [ExportMetrics] is called with for
    [tls.crt].  There is no Secret [ca-bundle-password]: [ca.crt] of
    [ca-bundle] is exported with the empty password. *)
Lemma C4_witness :
  PeriodicSecretChecker.resolvePassword Example.client Example.tls1 "tls.crt"
  = "s3cret"
  ∧ stage Example.client "default" "tls-1" "password" = ""
  ∧ plain "crt"
  ∧ strings_TrimSuffix ("tls" +:+ String "." "crt")
                       (path_Ext ("tls" +:+ String "." "crt")) = "tls"
  ∧ calls (PeriodicSecretChecker.dataBody Example.Match Example.secretChecker
             Example.client Example.tls1 ("tls.crt", Example.certBytes)
             Example.world0).2
    = [PeriodicSecretChecker.ExportMetricsCall Example.certBytes "tls.crt"
         "tls-1" "default" "s3cret" {[ "serviceline" := "payments" ]}]
  ∧ calls (PeriodicConfigMapChecker.dataBody Example.Match
             Example.configMapChecker Example.client Example.bundle
             ("ca.crt", Example.certBytes) Example.world0).2
    = [PeriodicConfigMapChecker.ExportMetricsCall Example.certBytes "ca.crt"
         "ca-bundle" "default" ""].
Proof.
  split; [|split; [|split; [|split; [|split]]]].
  - rewrite (proj1 (C4_password_precedence Example.client)). reflexivity.
  - apply (proj1 (proj2 (proj2 (C4_password_precedence Example.client)))
             "default" "tls-1" "password" "password not found in secret").
    reflexivity.
  - exact plain_crt.
  - apply (proj1 (proj2 (proj2 (proj2
             (C4_password_precedence Example.client))))).
    exact plain_crt.
  - pose proof (proj1 (proj2 (proj2 (proj2 (proj2 (proj2
                  (C4_password_precedence Example.client))))))
                  _ Example.Match Example.secretChecker Example.tls1 "tls.crt"
                  Example.certBytes Example.world0 eq_refl) as [Hcalls _].
    rewrite Hcalls. reflexivity.
  - pose proof (proj1 (proj2 (proj2 (proj2 (proj2 (proj2 (proj2
                  (C4_password_precedence Example.client)))))))
                  _ Example.Match Example.configMapChecker Example.bundle
                  "ca.crt" Example.certBytes Example.world0 eq_refl)
      as [Hcalls _].
    rewrite Hcalls. reflexivity.
Defined.




(** C6.  Text data and binary data of a ConfigMap are merged into one map, and
    it is the entries of that map the glob filters are applied to.  A key of
    either map is a key of the merged map, and a key of both maps carries its
    binary-data value. *)
Theorem C6_binary_data_overwrites_text (range : RangeFn)
    (configMap : ConfigMap.t) :
  RangeContract range →
  (∀ key text binary,
     ConfigMap.Data configMap !! key = Some text →
     ConfigMap.BinaryData configMap !! key = Some binary →
     PeriodicConfigMapChecker.combinedMap range configMap !! key = Some binary)
  ∧ (∀ key,
       PeriodicConfigMapChecker.combinedMap range configMap !! key =
       match ConfigMap.BinaryData configMap !! key with
       | Some binary => Some binary
       | None => list_byte_of_string <$> ConfigMap.Data configMap !! key
       end)
  ∧ dom (PeriodicConfigMapChecker.combinedMap range configMap)
    = dom (ConfigMap.Data configMap) ∪ dom (ConfigMap.BinaryData configMap)
  ∧ (∀ St (Match : MatchFn) (p : PeriodicConfigMapChecker.t St) client w,
       annotationFilter (PeriodicConfigMapChecker.annotationSelectors p)
                        (ConfigMap.Annotations configMap) = true →
       calls (PeriodicConfigMapChecker.configMapBody Match range p client
                configMap w).2 =
       calls w ++
       (entry ← range _ (PeriodicConfigMapChecker.combinedMap range configMap);
        configMapEntryExports Match p client configMap entry)).
Proof.
  intros HR. split; [|split; [|split]].
  - intros key text binary Ht Hb. by rewrite combinedMap_lookup, Hb.
  - intros key. by apply combinedMap_lookup.
  - apply set_eq. intros key.
    rewrite elem_of_union, !elem_of_dom, combinedMap_lookup by done.
    destruct (ConfigMap.BinaryData configMap !! key) as [b|],
             (ConfigMap.Data configMap !! key) as [t|]; simpl;
      split; try (intros [?|?]); try done; try (by eexists); eauto.
  - intros St Match p client w Ha.
    rewrite (configMap_body_emits Match range p client configMap w).
    unfold configMapExports. by rewrite Ha.
Qed.

(** [ca.crt] of [ca-bundle] is in both maps; the merged entry is the binary
    one. *)
Lemma C6_witness :
  RangeContract Example.range ∧
  PeriodicConfigMapChecker.combinedMap Example.range Example.bundle !! "ca.crt"
  = Some Example.certBytes.
Proof.
  split; [apply Example_range_contract|].
  apply (proj1 (C6_binary_data_overwrites_text Example.range Example.bundle
                  Example_range_contract) "ca.crt" "text" Example.certBytes);
    reflexivity.
Defined.

(** C7.  A list call that fails adds one to the error counter and nothing to
    the candidate list; the list calls of the other combinations are made all
    the same, and every listed resource is then processed in full: the
    exporter calls of a tick are those of all its candidates, whichever list
    calls, patterns or exports failed on the way, and the counter has grown
    by at least the number of failed list calls. *)
Theorem C7_list_failure_skips_only_itself (Match : MatchFn) (range : RangeFn)
    (client : Client) :
  (∀ St (p : PeriodicSecretChecker.t St) w,
     namespaceLoop (SecretsList client) (PeriodicSecretChecker.namespaces p)
       (PeriodicSecretChecker.labelSelectors p) [] w =
     (c ← combinations (PeriodicSecretChecker.namespaces p)
                       (PeriodicSecretChecker.labelSelectors p);
      listItems (SecretsList client) c,
      mkWorld (sink w)
        (failedLists (SecretsList client) (PeriodicSecretChecker.namespaces p)
           (PeriodicSecretChecker.labelSelectors p) + ErrorTotal w)
        (calls w))
     ∧ (∀ c e, SecretsList client c.1 c.2 = inr e →
               listItems (SecretsList client) c = []
               ∧ listFails (SecretsList client) c = true)
     ∧ calls (PeriodicSecretChecker.tick Match range p client w).2 =
       calls w ++
       PeriodicSecretChecker.ResetMetricsCall ::
       (secret ← candidates (SecretsList client)
                   (PeriodicSecretChecker.namespaces p)
                   (PeriodicSecretChecker.labelSelectors p);
        secretExports Match range p client secret)
     ∧ failedLists (SecretsList client) (PeriodicSecretChecker.namespaces p)
         (PeriodicSecretChecker.labelSelectors p) + ErrorTotal w
       ≤ ErrorTotal (PeriodicSecretChecker.tick Match range p client w).2
     ∧ (∀ c e, c ∈ combinations (PeriodicSecretChecker.namespaces p)
                                (PeriodicSecretChecker.labelSelectors p) →
             SecretsList client c.1 c.2 = inr e →
             ErrorTotal w
             < ErrorTotal (PeriodicSecretChecker.tick Match range p client w).2))
  ∧
  (∀ St (p : PeriodicConfigMapChecker.t St) w,
     namespaceLoop (ConfigMapsList client)
       (PeriodicConfigMapChecker.namespaces p)
       (PeriodicConfigMapChecker.labelSelectors p) [] w =
     (c ← combinations (PeriodicConfigMapChecker.namespaces p)
                       (PeriodicConfigMapChecker.labelSelectors p);
      listItems (ConfigMapsList client) c,
      mkWorld (sink w)
        (failedLists (ConfigMapsList client)
           (PeriodicConfigMapChecker.namespaces p)
           (PeriodicConfigMapChecker.labelSelectors p) + ErrorTotal w)
        (calls w))
     ∧ (∀ c e, ConfigMapsList client c.1 c.2 = inr e →
               listItems (ConfigMapsList client) c = []
               ∧ listFails (ConfigMapsList client) c = true)
     ∧ calls (PeriodicConfigMapChecker.tick Match range p client w).2 =
       calls w ++
       PeriodicConfigMapChecker.ResetMetricsCall ::
       (configMap ← candidates (ConfigMapsList client)
                      (PeriodicConfigMapChecker.namespaces p)
                      (PeriodicConfigMapChecker.labelSelectors p);
        configMapExports Match range p client configMap)
     ∧ failedLists (ConfigMapsList client)
         (PeriodicConfigMapChecker.namespaces p)
         (PeriodicConfigMapChecker.labelSelectors p) + ErrorTotal w
       ≤ ErrorTotal (PeriodicConfigMapChecker.tick Match range p client w).2
     ∧ (∀ c e, c ∈ combinations (PeriodicConfigMapChecker.namespaces p)
                                (PeriodicConfigMapChecker.labelSelectors p) →
             ConfigMapsList client c.1 c.2 = inr e →
             ErrorTotal w
             < ErrorTotal
                 (PeriodicConfigMapChecker.tick Match range p client w).2)).
Proof.
  split; intros St p w; (split; [|split; [|split; [|split]]]).
  - by rewrite namespaceLoop_run.
  - intros c e He. unfold listItems, listFails. by rewrite He.
  - apply secret_tick_emits.
  - apply secret_tick_counts.
  - intros c e Hc He.
    pose proof (secret_tick_counts Match range p client w) as Hle.
    assert (listFails (SecretsList client) c = true) as Hf.
    { unfold listFails. by rewrite He. }
    pose proof (failedLists_pos _ _ _ c Hc Hf). lia.
  - by rewrite namespaceLoop_run.
  - intros c e He. unfold listItems, listFails. by rewrite He.
  - apply configMap_tick_emits.
  - apply configMap_tick_counts.
  - intros c e Hc He.
    pose proof (configMap_tick_counts Match range p client w) as Hle.
    assert (listFails (ConfigMapsList client) c = true) as Hf.
    { unfold listFails. by rewrite He. }
    pose proof (failedLists_pos _ _ _ c Hc Hf). lia.
Qed.

(** In the example every list call on [kube-system] fails: the two failed
    calls are counted, and [tls-1] of [default] is exported all the same. *)
Lemma C7_witness :
  ErrorTotal (Example.world0 (Call:=PeriodicSecretChecker.Call))
  < ErrorTotal (PeriodicSecretChecker.tick Example.Match Example.range
                  Example.secretChecker Example.client Example.world0).2
  ∧ listItems (SecretsList Example.client) ("kube-system", "app=web") = [].
Proof.
  pose proof (proj1 (C7_list_failure_skips_only_itself Example.Match
                       Example.range Example.client)
                _ Example.secretChecker Example.world0)
    as (_ & Hzero & _ & _ & Hlt).
  split.
  - apply (Hlt ("kube-system", "app=web") "forbidden"); [|reflexivity].
    vm_compute. by left.
  - apply (Hzero ("kube-system", "app=web") "forbidden"). reflexivity.
Defined.

(** C8.  [ExportMetrics] returns an error exactly when the decoder does, and
    then leaves the metrics as they were.  When the decoder succeeds, each
    decoded certificate is written as two gauge values, its seconds until
    expiry and its not-after time, one [Set] on each of the two gauge vectors
    and nothing else; afterwards both vectors hold a series for every decoded
    certificate and are unchanged on every other label tuple. *)
Theorem C8_error_iff_decoder_fails
    (decoder : bytes -> string -> list ConfigMapExporter.certMetric + error)
    (data : bytes) (keyName name ns password : string)
    (labels : gmap string string) :
  (∀ G (HG : GaugeVec G) (m : ConfigMapExporter.Metrics G) e,
     (ConfigMapExporter.ExportMetrics decoder data keyName name ns password
        labels m).1 = Some e
     ↔ decoder data password = inr e)
  ∧ (∀ G (HG : GaugeVec G) (m : ConfigMapExporter.Metrics G) e,
       decoder data password = inr e →
       ConfigMapExporter.ExportMetrics decoder data keyName name ns password
         labels m = (Some e, m))
  ∧ (∀ (j : ConfigMapExporter.Metrics (list GaugeOp)) mc,
       decoder data password = inl mc →
       ConfigMapExporter.ExportMetrics decoder data keyName name ns password
         labels j =
       (None,
        ConfigMapExporter.mkMetrics
          (ConfigMapExporter.ConfigMapExpirySeconds j ++
           ((λ c, SetOp (seriesKey keyName name ns
                           (default "" (labels !! "serviceline")) c)
                        (ConfigMapExporter.durationUntilExpiry c)) <$> mc))
          (ConfigMapExporter.ConfigMapNotAfterTimestamp j ++
           ((λ c, SetOp (seriesKey keyName name ns
                           (default "" (labels !! "serviceline")) c)
                        (ConfigMapExporter.notAfter c)) <$> mc))))
  ∧ (∀ (j : ConfigMapExporter.Metrics (list GaugeOp)) mc,
       decoder data password = inl mc →
       let j' := (ConfigMapExporter.ExportMetrics decoder data keyName name ns
                    password labels j).2 in
       length (ConfigMapExporter.ConfigMapExpirySeconds j')
       + length (ConfigMapExporter.ConfigMapNotAfterTimestamp j')
       = length (ConfigMapExporter.ConfigMapExpirySeconds j)
         + length (ConfigMapExporter.ConfigMapNotAfterTimestamp j)
         + 2 * length mc)
  ∧ (∀ (m : ConfigMapExporter.Metrics (gmap (list string) float64)) mc,
       decoder data password = inl mc →
       let m' := (ConfigMapExporter.ExportMetrics decoder data keyName name ns
                    password labels m).2 in
       let key := seriesKey keyName name ns
                    (default "" (labels !! "serviceline")) in
       (∀ c, c ∈ mc →
             is_Some (ConfigMapExporter.ConfigMapExpirySeconds m' !! key c)
             ∧ is_Some (ConfigMapExporter.ConfigMapNotAfterTimestamp m'
                          !! key c))
       ∧ (∀ lvs, (∀ c, c ∈ mc → key c ≠ lvs) →
                 ConfigMapExporter.ConfigMapExpirySeconds m' !! lvs
                 = ConfigMapExporter.ConfigMapExpirySeconds m !! lvs
                 ∧ ConfigMapExporter.ConfigMapNotAfterTimestamp m' !! lvs
                   = ConfigMapExporter.ConfigMapNotAfterTimestamp m !! lvs)).
Proof.
  unfold ConfigMapExporter.ExportMetrics.
  split; [|split; [|split; [|split]]].
  - intros G HG m e. destruct (decoder data password) as [mc|e']; simpl.
    + split; intros [=].
    + split; intros [= ->]; done.
  - intros G HG m e ->. done.
  - intros j mc ->. by rewrite foldl_exportOne_journal.
  - intros j mc ->. simpl. rewrite foldl_exportOne_journal. simpl.
    rewrite !length_app, !length_fmap. lia.
  - intros m mc ->. simpl. split.
    + intros c Hc. rewrite foldl_exportOne_expiry, foldl_exportOne_notAfter.
      split; by apply lastValue_elem.
    + intros lvs Hother.
      rewrite foldl_exportOne_expiry, foldl_exportOne_notAfter. split.
      * by apply lastValue_other.
      * by apply lastValue_other.
Qed.

(** An empty blob does not decode: the export fails and the stale metrics
    stay; a certificate blob is written as one [Set] on each vector. *)
Lemma C8_witness :
  ConfigMapExporter.ExportMetrics Example.decoder [] "tls.crt" "tls-1"
    "default" "" ∅ Example.staleMetrics
  = (Some "failed to parse as pem and pkcs12", Example.staleMetrics)
  ∧ ConfigMapExporter.ExportMetrics Example.decoder Example.certBytes "tls.crt"
      "tls-1" "default" "" ∅ (ConfigMapExporter.mkMetrics [] [])
    = (None,
       ConfigMapExporter.mkMetrics
         [SetOp ["tls.crt"; "ca"; "tls-1"; "tls-1"; "default"; ""] 86400%float]
         [SetOp ["tls.crt"; "ca"; "tls-1"; "tls-1"; "default"; ""]
                1800000000%float]).
Proof.
  split.
  - apply (proj1 (proj2 (C8_error_iff_decoder_fails Example.decoder []
                           "tls.crt" "tls-1" "default" "" ∅))).
    reflexivity.
  - rewrite (proj1 (proj2 (proj2 (C8_error_iff_decoder_fails Example.decoder
                                    Example.certBytes "tls.crt" "tls-1"
                                    "default" "" ∅)))
               (ConfigMapExporter.mkMetrics [] []) [Example.cert] eq_refl).
    reflexivity.
Defined.

(** C9.  With label selectors configured, the candidate list of a tick is the
    concatenation, namespace by namespace and selector by selector, of what
    the list calls return: nothing is removed, so a resource that several
    selectors match is listed several times.  On the metrics an export is
    idempotent, and an export that is repeated later in the tick leaves no
    trace of its own: the final metrics are those of the tick without the
    earlier copy. *)
Theorem C9_duplicates_do_not_change_metrics {R St Call}
    (List : string -> string -> list R + error)
    (namespaces labelSelectors : list string) (w : World St Call)
    (decoder : bytes -> string -> list ConfigMapExporter.certMetric + error)
    (a : ExportArgs) (between : list ExportArgs)
    (m : ConfigMapExporter.Metrics (gmap (list string) float64)) :
  0 < length labelSelectors →
  (namespaceLoop List namespaces labelSelectors [] w).1
    = (ns ← namespaces; sel ← labelSelectors; listItems List (ns, sel))
  ∧ length (namespaceLoop List namespaces labelSelectors [] w).1
    = sum_list_with
        (λ ns, sum_list_with (λ sel, length (listItems List (ns, sel)))
                             labelSelectors)
        namespaces
  ∧ (ConfigMapExporter.ExportMetrics decoder (argData a) (argKeyName a)
       (argName a) (argNamespace a) (argPassword a) (argLabels a)
       (ConfigMapExporter.ExportMetrics decoder (argData a) (argKeyName a)
          (argName a) (argNamespace a) (argPassword a) (argLabels a) m).2).2
    = (ConfigMapExporter.ExportMetrics decoder (argData a) (argKeyName a)
         (argName a) (argNamespace a) (argPassword a) (argLabels a) m).2
  ∧ exportAll decoder (a :: between ++ [a]) m
    = exportAll decoder (between ++ [a]) m.
Proof.
  intros Hsel. rewrite namespaceLoop_run. cbn [fst app].
  rewrite candidates_selectors by done.
  split; [done|]. split; [|split].
  - rewrite length_list_bind.
    induction namespaces as [|ns rest IH]; [done|].
    simpl. by rewrite IH, length_list_bind.
  - apply (Overwrites_absorbs (exportWith decoder a) (λ m, m));
      [apply Overwrites_exportWith | apply Overwrites_id].
  - unfold exportAll. simpl. rewrite !foldl_app. simpl.
    apply (Overwrites_absorbs (exportWith decoder a) (exportAll decoder between));
      [apply Overwrites_exportWith | apply Overwrites_exportAll].
Qed.

(** The example lists [tls-1] once per selector, and exporting it before and
    after another entry leaves the metrics of exporting it after. *)
Lemma C9_witness :
  0 < length ["app=web"; "tier=edge"]
  ∧ (namespaceLoop (SecretsList Example.client) ["kube-system"; "default"]
       ["app=web"; "tier=edge"] []
       (Example.world0 (Call:=PeriodicSecretChecker.Call))).1
    = [Example.tls1; Example.tls1]
  ∧ exportAll Example.decoder
      [Example.exportTls1; Example.exportBundle; Example.exportTls1]
      Example.emptyMetrics
    = exportAll Example.decoder [Example.exportBundle; Example.exportTls1]
        Example.emptyMetrics.
Proof.
  assert (0 < length ["app=web"; "tier=edge"]) as Hsel by (simpl; lia).
  pose proof (C9_duplicates_do_not_change_metrics
                (SecretsList Example.client) ["kube-system"; "default"]
                ["app=web"; "tier=edge"]
                (Example.world0 (Call:=PeriodicSecretChecker.Call))
                Example.decoder Example.exportTls1 [Example.exportBundle]
                Example.emptyMetrics Hsel) as (Hlist & _ & _ & Hreplay).
  split; [exact Hsel|]. split; [|exact Hreplay].
  rewrite Hlist. reflexivity.
Defined.

(** C10.  [getPasswordFromSecret] returns the empty string whenever the lookup
    fails, and a [password] entry holding no bytes gives the empty string as
    well; the later stages are tried whenever the password so far is empty.
    So against two clusters that differ only in that the Secret holds an empty
    [password] entry in one and none in the other, resolution yields the same
    password - that of the two sibling-Secret stages - and the entry is
    handled the same. *)
Theorem C10_empty_password_entry_is_absent (client client' : Client)
    (secret present absent : Secret.t) (name : string) :
  SecretsGet client (Secret.Namespace secret) (Secret.Name secret)
    = inl present →
  Secret.Data present !! "password" = Some [] →
  SecretsGet client' (Secret.Namespace secret) (Secret.Name secret)
    = inl absent →
  Secret.Data absent !! "password" = @None bytes →
  SecretsGet client (Secret.Namespace secret)
             (Secret.Name secret +:+ "-password")
    = SecretsGet client' (Secret.Namespace secret)
                 (Secret.Name secret +:+ "-password") →
  (∀ c namespace secretName passwordKey e,
     (getPasswordFromSecret c namespace secretName passwordKey).2 = Some e →
     (getPasswordFromSecret c namespace secretName passwordKey).1 = "")
  ∧ getPasswordFromSecret client (Secret.Namespace secret) (Secret.Name secret)
      "password" = ("", None)
  ∧ (getPasswordFromSecret client' (Secret.Namespace secret)
       (Secret.Name secret) "password").1 = ""
  ∧ PeriodicSecretChecker.resolvePassword client secret name =
    firstNonEmpty
      [stage client (Secret.Namespace secret)
         (Secret.Name secret +:+ "-password")
         (strings_TrimSuffix name (path_Ext name) +:+ ".password");
       stage client (Secret.Namespace secret)
         (Secret.Name secret +:+ "-password") (name +:+ ".password")]
  ∧ PeriodicSecretChecker.resolvePassword client secret name =
    PeriodicSecretChecker.resolvePassword client' secret name
  ∧ (∀ St (Match : MatchFn) (p : PeriodicSecretChecker.t St) data w,
       PeriodicSecretChecker.dataBody Match p client secret (name, data) w =
       PeriodicSecretChecker.dataBody Match p client' secret (name, data) w).
Proof.
  intros Hget Hkey Hget' Hkey' Hsibling.
  assert (stage client (Secret.Namespace secret) (Secret.Name secret)
            "password" = "") as H1.
  { by rewrite (stage_present _ _ _ _ _ _ Hget Hkey). }
  assert (stage client' (Secret.Namespace secret) (Secret.Name secret)
            "password" = "") as H1'.
  { by rewrite (stage_absent _ _ _ _ _ Hget' Hkey'). }
  assert (PeriodicSecretChecker.resolvePassword client secret name =
          PeriodicSecretChecker.resolvePassword client' secret name) as Heq.
  { rewrite !secret_resolvePassword_stages, H1, H1'.
    by rewrite !(stage_agree client client' _ _ _ Hsibling). }
  split; [intros c; apply getPasswordFromSecret_failure|].
  split.
  { unfold getPasswordFromSecret. rewrite Hget. cbv beta iota. by rewrite Hkey. }
  split; [exact H1'|].
  split; [by rewrite secret_resolvePassword_stages, H1|].
  split; [exact Heq|].
  intros St Match p data w. rewrite !secret_dataBody_run. cbn [fst snd].
  by rewrite Heq.
Qed.

(** [tls-1] with an empty [password] entry resolves to the password of
    [tls-1-password], exactly as [tls-1] without one does. *)
Lemma C10_witness :
  PeriodicSecretChecker.resolvePassword Example.clientEmptyPassword
    Example.tls1 "tls.crt" = "s3cret"
  ∧ PeriodicSecretChecker.resolvePassword Example.clientEmptyPassword
      Example.tls1 "tls.crt" =
    PeriodicSecretChecker.resolvePassword Example.client Example.tls1 "tls.crt".
Proof.
  pose proof (C10_empty_password_entry_is_absent Example.clientEmptyPassword
                Example.client Example.tls1 Example.tls1EmptyPassword
                Example.tls1 "tls.crt"
                eq_refl eq_refl eq_refl eq_refl eq_refl)
    as (_ & _ & _ & Hstages & Hsame & _).
  split; [|exact Hsame].
  rewrite Hstages. reflexivity.
Defined.

(** * Further properties of the code *)

(** *** The type filter *)

Lemma typeLoop_true types secretType include :
  PeriodicSecretChecker.typeLoop types secretType include = true ↔
  include = true ∨ secretType ∈ types.
Proof.
  revert include. induction types as [|t rest IH]; intros include; simpl.
  - split; [by left | intros [?|Hin]; [done | by apply elem_of_nil in Hin]].
  - rewrite IH. destruct (String.eqb_spec secretType t) as [->|Hne].
    + split; [intros _; right; by left | by left].
    + split.
      * intros [?|?]; [by left | right; by right].
      * intros [?|Hin]; [by left|].
        apply elem_of_cons in Hin as [?|?]; [done | by right].
Qed.

(** X1.  The type filter of the Secret checker keeps a secret iff no type is
    configured or the secret's type is one of the configured ones; a secret
    it rejects is skipped whatever its annotations and data: no call, no
    error, no change. *)
Theorem X1_type_filter (types : list string) (secretType : string) :
  (PeriodicSecretChecker.typeFilter types secretType = true ↔
     types = [] ∨ secretType ∈ types)
  ∧ (∀ St (Match : MatchFn) (range : RangeFn) (p : PeriodicSecretChecker.t St)
       client secret w,
       PeriodicSecretChecker.includeSecretsTypes p = types →
       Secret.Type_ secret = secretType →
       PeriodicSecretChecker.typeFilter types secretType = false →
       PeriodicSecretChecker.secretBody Match range p client secret w = (tt, w)).
Proof.
  split.
  - unfold PeriodicSecretChecker.typeFilter. destruct types as [|t rest].
    + simpl. split; [by left | done].
    + change (0 <? length (t :: rest)) with true. cbv iota.
      rewrite typeLoop_true. split; [intros [?|?]; [done | by right]|].
      intros [?|?]; [done | by right].
  - intros St Match range p client secret w <- <- Hf.
    unfold PeriodicSecretChecker.secretBody. by rewrite Hf.
Qed.

Lemma X1_witness :
  PeriodicSecretChecker.typeFilter ["Opaque"] (Secret.Type_ Example.tls1)
  = false
  ∧ PeriodicSecretChecker.typeFilter ["Opaque"; "kubernetes.io/tls"]
      (Secret.Type_ Example.tls1) = true.
Proof.
  split; [reflexivity|].
  apply (proj1 (X1_type_filter _ _)). right. right. by left.
Defined.

(** *** [getPasswordFromSecret] *)

(** X2.  [getPasswordFromSecret] succeeds exactly when the Secret can be read
    and holds the key; it then returns the stored bytes unchanged, an empty
    value included.  When the Secret cannot be read it hands back the error
    of the read; when the key is missing, an error of its own. *)
Theorem X2_getPasswordFromSecret_outcomes (client : Client)
    (namespace secretName passwordKey : string) :
  ((getPasswordFromSecret client namespace secretName passwordKey).2 = None ↔
     ∃ secret value,
       SecretsGet client namespace secretName = inl secret
       ∧ Secret.Data secret !! passwordKey = Some value)
  ∧ (∀ secret value,
       SecretsGet client namespace secretName = inl secret →
       Secret.Data secret !! passwordKey = Some value →
       (getPasswordFromSecret client namespace secretName passwordKey).2 = None
       ∧ list_byte_of_string
           (getPasswordFromSecret client namespace secretName passwordKey).1
         = value)
  ∧ (∀ err,
       SecretsGet client namespace secretName = inr err →
       getPasswordFromSecret client namespace secretName passwordKey
       = ("", Some err))
  ∧ (∀ secret,
       SecretsGet client namespace secretName = inl secret →
       Secret.Data secret !! passwordKey = @None bytes →
       getPasswordFromSecret client namespace secretName passwordKey
       = ("", Some "password not found in secret")).
Proof.
  unfold getPasswordFromSecret.
  destruct (SecretsGet client namespace secretName) as [secret|err] eqn:Eget.
  - destruct (Secret.Data secret !! passwordKey) as [value|] eqn:Ekey; simpl.
    + split; [split; [by eexists _, _ | done]|].
      split; [|split; [done|]].
      * intros secret' value' [= <-] Hv. rewrite Ekey in Hv.
        injection Hv as <-. split; [done|].
        apply list_byte_of_string_of_list_byte.
      * intros secret' [= <-] Hv. by rewrite Ekey in Hv.
    + split; [split; [done|]|].
      * intros (secret' & value & [= <-] & Hv). by rewrite Ekey in Hv.
      * split; [|split; [done|]].
        -- intros secret' value [= <-] Hv. by rewrite Ekey in Hv.
        -- done.
  - simpl. split; [split; [done | by intros (? & ? & ? & _)]|].
    split; [done|]. split; [by intros ? [= ->] | done].
Qed.

Lemma X2_witness :
  list_byte_of_string
    (getPasswordFromSecret Example.client "default" "tls-1-password"
       "tls.password").1
  = list_byte_of_string "s3cret"
  ∧ getPasswordFromSecret Example.client "kube-system" "tls-1" "password"
    = ("", Some "not found").
Proof.
  split.
  - apply (proj1 (proj2 (X2_getPasswordFromSecret_outcomes Example.client
                           "default" "tls-1-password" "tls.password"))
             Example.tls1Password); reflexivity.
  - apply (proj1 (proj2 (proj2 (X2_getPasswordFromSecret_outcomes
                                  Example.client "kube-system" "tls-1"
                                  "password")))).
    reflexivity.
Defined.

(** *** The glob loops *)

(** X3.  A glob loop stops at the first pattern that matches: the patterns
    after it are not evaluated, so they change neither the flag, which is
    [true], nor the error counter, even when they are malformed; errors are
    counted for patterns before it only. *)
Theorem X3_glob_loop_stops_at_first_match {St Call} (Match : MatchFn)
    (before after : list string) (glob name : string) (flag : bool)
    (w : World St Call) :
  Match glob name = (true, None) →
  globLoop Match (before ++ glob :: after) name flag w
  = globLoop Match (before ++ [glob]) name flag w
  ∧ (globLoop Match (before ++ glob :: after) name flag w).1 = true
  ∧ ErrorTotal (globLoop Match (before ++ glob :: after) name flag w).2
    ≤ ErrorTotal w + length before.
Proof.
  intros Hm. revert flag w.
  induction before as [|g rest IH]; intros flag w.
  - simpl. rewrite Hm. simpl. split; [done|]. split; [done | lia].
  - simpl. destruct (Match g name) as [matched [e|]].
    + rewrite !bind_run. cbn [fst snd ErrorTotal_Inc].
      destruct (IH matched
                  (mkWorld (sink w) (Datatypes.S (ErrorTotal w)) (calls w)))
        as (H1 & H2 & H3).
      split; [exact H1|]. split; [exact H2|]. simpl in H3. lia.
    + destruct matched.
      * simpl. split; [done|]. split; [done | lia].
      * destruct (IH false w) as (H1 & H2 & H3).
        split; [exact H1|]. split; [exact H2 | lia].
Qed.

(** [*.crt] matches [tls.crt]; the malformed pattern after it goes
    unnoticed. *)
Lemma X3_witness :
  globLoop Example.Match ([] ++ "*.crt" :: ["["]) "tls.crt" false
    (Example.world0 (Call:=PeriodicSecretChecker.Call))
  = globLoop Example.Match ([] ++ ["*.crt"]) "tls.crt" false Example.world0.
Proof.
  apply (X3_glob_loop_stops_at_first_match Example.Match [] ["["] "*.crt"
           "tls.crt" false Example.world0).
  reflexivity.
Defined.

(** *** The error counter *)

Lemma secret_dataBody_errors (Match : MatchFn) :
  (∀ St (p : PeriodicSecretChecker.t St) client secret name data w,
     ErrorTotal (PeriodicSecretChecker.dataBody Match p client secret
                   (name, data) w).2
     = ErrorTotal w
       + globErrors Match (PeriodicSecretChecker.includeSecretsDataGlobs p) name
       + globErrors Match (PeriodicSecretChecker.excludeSecretsDataGlobs p) name
       + (if globFlag Match (PeriodicSecretChecker.includeSecretsDataGlobs p)
                      name false
             && negb (globFlag Match
                        (PeriodicSecretChecker.excludeSecretsDataGlobs p)
                        name false)
          then
            match (PeriodicSecretChecker.ExportMetrics
                     (PeriodicSecretChecker.exporter p) data name
                     (Secret.Name secret) (Secret.Namespace secret)
                     (PeriodicSecretChecker.resolvePassword client secret name)
                     (Secret.Labels secret) (sink w)).1
            with Some _ => 1 | None => 0 end
          else 0)).
Proof.
  intros St p client secret name data w.
  rewrite secret_dataBody_run. cbn [fst snd].
  destruct (_ && _); [|simpl; lia].
  rewrite bind_run. unfold PeriodicSecretChecker.callExportMetrics.
  cbn [sink].
  destruct (PeriodicSecretChecker.ExportMetrics _ _ _ _ _ _ _ _)
    as [[e|] s]; simpl; lia.
Qed.

Lemma configMap_dataBody_errors (Match : MatchFn) :
  (∀ St (p : PeriodicConfigMapChecker.t St) client configMap name data w,
     ErrorTotal (PeriodicConfigMapChecker.dataBody Match p client configMap
                   (name, data) w).2
     = ErrorTotal w
       + globErrors Match
           (PeriodicConfigMapChecker.includeConfigMapsDataGlobs p) name
       + globErrors Match
           (PeriodicConfigMapChecker.excludeConfigMapsDataGlobs p) name
       + (if globFlag Match
               (PeriodicConfigMapChecker.includeConfigMapsDataGlobs p)
               name false
             && negb (globFlag Match
                        (PeriodicConfigMapChecker.excludeConfigMapsDataGlobs p)
                        name false)
          then
            match (PeriodicConfigMapChecker.ExportMetrics
                     (PeriodicConfigMapChecker.exporter p) data name
                     (ConfigMap.Name configMap) (ConfigMap.Namespace configMap)
                     (PeriodicConfigMapChecker.resolvePassword client configMap
                        name) (sink w)).1
            with Some _ => 1 | None => 0 end
          else 0)).
Proof.
  intros St p client configMap name data w.
  rewrite configMap_dataBody_run. cbn [fst snd].
  destruct (_ && _); [|simpl; lia].
  rewrite bind_run. unfold PeriodicConfigMapChecker.callExportMetrics.
  cbn [sink].
  destruct (PeriodicConfigMapChecker.ExportMetrics _ _ _ _ _ _ _)
    as [[e|] s]; simpl; lia.
Qed.

(** X4.  Handling one data entry adds to the error counter one per malformed
    pattern met in the include loop, one per malformed pattern met in the
    exclude loop - which runs whether or not the include loop matched - and
    one more if the entry is exported and the export fails; nothing else. *)
Theorem X4_entry_error_count (Match : MatchFn) :
  (∀ St (p : PeriodicSecretChecker.t St) client secret name data w,
     ErrorTotal (PeriodicSecretChecker.dataBody Match p client secret
                   (name, data) w).2
     = ErrorTotal w
       + globErrors Match (PeriodicSecretChecker.includeSecretsDataGlobs p) name
       + globErrors Match (PeriodicSecretChecker.excludeSecretsDataGlobs p) name
       + (if globFlag Match (PeriodicSecretChecker.includeSecretsDataGlobs p)
                      name false
             && negb (globFlag Match
                        (PeriodicSecretChecker.excludeSecretsDataGlobs p)
                        name false)
          then
            match (PeriodicSecretChecker.ExportMetrics
                     (PeriodicSecretChecker.exporter p) data name
                     (Secret.Name secret) (Secret.Namespace secret)
                     (PeriodicSecretChecker.resolvePassword client secret name)
                     (Secret.Labels secret) (sink w)).1
            with Some _ => 1 | None => 0 end
          else 0))
  ∧
  (∀ St (p : PeriodicConfigMapChecker.t St) client configMap name data w,
     ErrorTotal (PeriodicConfigMapChecker.dataBody Match p client configMap
                   (name, data) w).2
     = ErrorTotal w
       + globErrors Match
           (PeriodicConfigMapChecker.includeConfigMapsDataGlobs p) name
       + globErrors Match
           (PeriodicConfigMapChecker.excludeConfigMapsDataGlobs p) name
       + (if globFlag Match
               (PeriodicConfigMapChecker.includeConfigMapsDataGlobs p)
               name false
             && negb (globFlag Match
                        (PeriodicConfigMapChecker.excludeConfigMapsDataGlobs p)
                        name false)
          then
            match (PeriodicConfigMapChecker.ExportMetrics
                     (PeriodicConfigMapChecker.exporter p) data name
                     (ConfigMap.Name configMap) (ConfigMap.Namespace configMap)
                     (PeriodicConfigMapChecker.resolvePassword client configMap
                        name) (sink w)).1
            with Some _ => 1 | None => 0 end
          else 0)).
Proof.
  split; [apply secret_dataBody_errors | apply configMap_dataBody_errors].
Qed.

Lemma globErrors_none (Match : MatchFn) globs name :
  (∀ glob, glob ∈ globs → (Match glob name).2 = None) →
  globErrors Match globs name = 0.
Proof.
  induction globs as [|glob rest IH]; intros Hok; simpl; [done|].
  pose proof (Hok glob (list_elem_of_here _ _)) as Hg.
  destruct (Match glob name) as [matched [e|]]; [done|].
  destruct matched; [done|]. apply IH. intros g Hin. apply Hok. by right.
Qed.

Lemma failedLists_none {R} (List : string -> string -> list R + error)
    namespaces labelSelectors :
  (∀ c, c ∈ combinations namespaces labelSelectors →
        ∃ items, List c.1 c.2 = inl items) →
  failedLists List namespaces labelSelectors = 0.
Proof.
  unfold failedLists.
  induction (combinations namespaces labelSelectors) as [|c cs IH];
    intros Hok; [done|].
  rewrite filter_cons, decide_False.
  - apply IH. intros c' Hc'. apply Hok. by right.
  - unfold listFails. destruct (Hok c (list_elem_of_here _ _)) as [items ->].
    done.
Qed.

Section Tallies.
Context {St Call : Type} (step : Call -> St -> nat * St).

Lemma replay_app (l1 l2 : list Call) (s : St) :
  replay step (l1 ++ l2) s =
  ((replay step l1 s).1 + (replay step l2 (replay step l1 s).2).1,
   (replay step l2 (replay step l1 s).2).2).
Proof.
  revert s. induction l1 as [|c l1 IH]; intros s; simpl.
  - by destruct (replay step l2 s).
  - destruct (step c s) as [k s']. rewrite IH.
    destruct (replay step l1 s') as [n1 s1]. simpl.
    destruct (replay step l2 s1) as [n2 s2]. simpl. f_equal. lia.
Qed.

Lemma tallies_ret {A} (a : A) : tallies step (ret (Call:=Call) a) [].
Proof. intros w. simpl. rewrite app_nil_r. repeat split; lia. Qed.

Lemma tallies_bind {A B} (m : M St Call A) (k : A -> M St Call B) l1 l2 :
  tallies step m l1 → (∀ a, tallies step (k a) l2) →
  tallies step (bind m k) (l1 ++ l2).
Proof.
  intros Hm Hk w. rewrite bind_run.
  destruct (Hm w) as (Hc1 & Hs1 & He1).
  destruct (Hk (m w).1 (m w).2) as (Hc2 & Hs2 & He2).
  rewrite replay_app. cbn [fst snd].
  rewrite Hc2, Hc1, Hs2, He2, He1, Hs1, app_assoc. repeat split; lia.
Qed.

Lemma tallies_forEach {A} (body : A -> M St Call unit) (f : A -> list Call) xs :
  (∀ x, x ∈ xs → tallies step (body x) (f x)) →
  tallies step (forEach body xs) (xs ≫= f).
Proof.
  induction xs as [|x xs IH]; intros Hbody; simpl.
  - apply tallies_ret.
  - apply tallies_bind; [apply Hbody; by left|].
    intros _. apply IH. intros y Hy. apply Hbody. by right.
Qed.

End Tallies.

Lemma secret_dataBody_tallies {St} (Match : MatchFn)
    (p : PeriodicSecretChecker.t St) client secret entry :
  (∀ glob name,
     glob ∈ PeriodicSecretChecker.includeSecretsDataGlobs p
            ++ PeriodicSecretChecker.excludeSecretsDataGlobs p →
     (Match glob name).2 = None) →
  tallies (secretStep (PeriodicSecretChecker.exporter p))
          (PeriodicSecretChecker.dataBody Match p client secret entry)
          (secretEntryExports Match p client secret entry).
Proof.
  intros Hglob w. rewrite secret_dataBody_run.
  rewrite !globErrors_none.
  2:{ intros g Hg. apply Hglob. apply elem_of_app. by left. }
  2:{ intros g Hg. apply Hglob. apply elem_of_app. by right. }
  unfold secretEntryExports. destruct (_ && _).
  - rewrite bind_run. unfold PeriodicSecretChecker.callExportMetrics.
    cbn [sink calls ErrorTotal replay secretStep].
    destruct (PeriodicSecretChecker.ExportMetrics _ _ _ _ _ _ _ _)
      as [[e|] s]; simpl; repeat split; lia.
  - simpl. rewrite app_nil_r. repeat split; lia.
Qed.

Lemma configMap_dataBody_tallies {St} (Match : MatchFn)
    (p : PeriodicConfigMapChecker.t St) client configMap entry :
  (∀ glob name,
     glob ∈ PeriodicConfigMapChecker.includeConfigMapsDataGlobs p
            ++ PeriodicConfigMapChecker.excludeConfigMapsDataGlobs p →
     (Match glob name).2 = None) →
  tallies (configMapStep (PeriodicConfigMapChecker.exporter p))
          (PeriodicConfigMapChecker.dataBody Match p client configMap entry)
          (configMapEntryExports Match p client configMap entry).
Proof.
  intros Hglob w. rewrite configMap_dataBody_run.
  rewrite !globErrors_none.
  2:{ intros g Hg. apply Hglob. apply elem_of_app. by left. }
  2:{ intros g Hg. apply Hglob. apply elem_of_app. by right. }
  unfold configMapEntryExports. destruct (_ && _).
  - rewrite bind_run. unfold PeriodicConfigMapChecker.callExportMetrics.
    cbn [sink calls ErrorTotal replay configMapStep].
    destruct (PeriodicConfigMapChecker.ExportMetrics _ _ _ _ _ _ _)
      as [[e|] s]; simpl; repeat split; lia.
  - simpl. rewrite app_nil_r. repeat split; lia.
Qed.

(** X5.  In a tick in which every list call succeeds and none of the
    configured patterns is malformed, the error counter grows by exactly the
    number of [ExportMetrics] calls of the tick that return an error; if none
    of them does, the tick leaves the counter where it was.  The failed calls
    are counted by making the calls of the tick again, in order, on the
    metrics the tick started from, which leaves the metrics the tick left. *)
Theorem X5_clean_tick_counts_nothing (Match : MatchFn) (range : RangeFn)
    (client : Client) :
  (∀ St (p : PeriodicSecretChecker.t St) w,
     (∀ c, c ∈ combinations (PeriodicSecretChecker.namespaces p)
                            (PeriodicSecretChecker.labelSelectors p) →
           ∃ items, SecretsList client c.1 c.2 = inl items) →
     (∀ glob name,
        glob ∈ PeriodicSecretChecker.includeSecretsDataGlobs p
               ++ PeriodicSecretChecker.excludeSecretsDataGlobs p →
        (Match glob name).2 = None) →
     let w' := (PeriodicSecretChecker.tick Match range p client w).2 in
     let again :=
       replay (secretStep (PeriodicSecretChecker.exporter p))
              (drop (length (calls w)) (calls w')) (sink w) in
     ErrorTotal w' = ErrorTotal w + again.1
     ∧ again.2 = sink w'
     ∧ (again.1 = 0 → ErrorTotal w' = ErrorTotal w))
  ∧
  (∀ St (p : PeriodicConfigMapChecker.t St) w,
     (∀ c, c ∈ combinations (PeriodicConfigMapChecker.namespaces p)
                            (PeriodicConfigMapChecker.labelSelectors p) →
           ∃ items, ConfigMapsList client c.1 c.2 = inl items) →
     (∀ glob name,
        glob ∈ PeriodicConfigMapChecker.includeConfigMapsDataGlobs p
               ++ PeriodicConfigMapChecker.excludeConfigMapsDataGlobs p →
        (Match glob name).2 = None) →
     let w' := (PeriodicConfigMapChecker.tick Match range p client w).2 in
     let again :=
       replay (configMapStep (PeriodicConfigMapChecker.exporter p))
              (drop (length (calls w)) (calls w')) (sink w) in
     ErrorTotal w' = ErrorTotal w + again.1
     ∧ again.2 = sink w'
     ∧ (again.1 = 0 → ErrorTotal w' = ErrorTotal w)).
Proof.
  split.
  - intros St p w Hlist Hglob. cbv zeta.
    assert (tallies (secretStep (PeriodicSecretChecker.exporter p))
              (forEach (PeriodicSecretChecker.secretBody Match range p client)
                 (candidates (SecretsList client)
                    (PeriodicSecretChecker.namespaces p)
                    (PeriodicSecretChecker.labelSelectors p)))
              (secretTickExports Match range p client)) as Hall.
    { apply tallies_forEach. intros secret _.
      unfold PeriodicSecretChecker.secretBody, secretExports.
      destruct (PeriodicSecretChecker.typeFilter _ _); [|apply tallies_ret].
      destruct (annotationFilter _ _); [|apply tallies_ret].
      apply tallies_forEach. intros entry _.
      by apply secret_dataBody_tallies. }
    rewrite secret_tick_run, failedLists_none by done.
    match goal with |- context [forEach _ _ ?w0] =>
      destruct (Hall w0) as (Hc & Hs & He) end.
    rewrite Hc, He, Hs. cbn [calls sink ErrorTotal].
    rewrite <- app_assoc, drop_app_length. cbn [app replay secretStep].
    destruct (replay _ _ _) as [n s]. cbn [fst snd].
    split; [lia|]. split; [done | lia].
  - intros St p w Hlist Hglob. cbv zeta.
    assert (tallies (configMapStep (PeriodicConfigMapChecker.exporter p))
              (forEach (PeriodicConfigMapChecker.configMapBody Match range p
                          client)
                 (candidates (ConfigMapsList client)
                    (PeriodicConfigMapChecker.namespaces p)
                    (PeriodicConfigMapChecker.labelSelectors p)))
              (configMapTickExports Match range p client)) as Hall.
    { apply tallies_forEach. intros configMap _.
      unfold PeriodicConfigMapChecker.configMapBody, configMapExports.
      destruct (annotationFilter _ _); [|apply tallies_ret].
      apply tallies_forEach. intros entry _.
      by apply configMap_dataBody_tallies. }
    rewrite configMap_tick_run, failedLists_none by done.
    match goal with |- context [forEach _ _ ?w0] =>
      destruct (Hall w0) as (Hc & Hs & He) end.
    rewrite Hc, He, Hs. cbn [calls sink ErrorTotal].
    rewrite <- app_assoc, drop_app_length. cbn [app replay configMapStep].
    destruct (replay _ _ _) as [n s]. cbn [fst snd].
    split; [lia|]. split; [done | lia].
Qed.

Lemma Example2_globs_wellformed glob name :
  glob ∈ ["*.crt"] ++ ["*.key"] → (Example.Match glob name).2 = None.
Proof.
  intros Hin. apply elem_of_cons in Hin as [->|Hin]; [done|].
  apply elem_of_cons in Hin as [->|Hin]; [done|]. by apply elem_of_nil in Hin.
Qed.

(** On namespace [default], with well-formed patterns, the one export of the
    tick succeeds - though the exporter fails on other data - and the
    counter stays at 7. *)
Lemma X5_witness :
  ErrorTotal (PeriodicSecretChecker.tick Example.Match Example.range
                Example2.secretChecker Example.client Example.world1).2 = 7
  ∧ ErrorTotal (PeriodicConfigMapChecker.tick Example.Match Example.range
                  Example2.configMapChecker Example.client Example.world1).2
    = 7
  ∧ (PeriodicSecretChecker.ExportMetrics Example.secretExporter [] "" "" "" ""
       ∅ Example.emptyMetrics).1 ≠ None.
Proof.
  split; [|split; [|done]].
  - apply (proj1 (X5_clean_tick_counts_nothing Example.Match Example.range
                    Example.client) _ Example2.secretChecker Example.world1).
    + intros c Hc. apply list_elem_of_singleton in Hc as ->. by eexists.
    + apply Example2_globs_wellformed.
    + reflexivity.
  - apply (proj2 (X5_clean_tick_counts_nothing Example.Match Example.range
                    Example.client) _ Example2.configMapChecker Example.world1).
    + intros c Hc. apply list_elem_of_singleton in Hc as ->. by eexists.
    + apply Example2_globs_wellformed.
    + reflexivity.
Defined.

(** *** The order in which maps are visited *)

Lemma list_bind_Permutation_ext {A B} (f g : A -> list B) (l : list A) :
  (∀ x, f x ≡ₚ g x) → l ≫= f ≡ₚ l ≫= g.
Proof.
  intros Hfg. induction l as [|x l IH]; [done|].
  rewrite !bind_cons. by rewrite (Hfg x), IH.
Qed.

Lemma combinedMap_any_order (range range' : RangeFn) configMap :
  RangeContract range → RangeContract range' →
  PeriodicConfigMapChecker.combinedMap range configMap
  = PeriodicConfigMapChecker.combinedMap range' configMap.
Proof.
  intros HR HR'. apply map_eq. intros key.
  by rewrite !combinedMap_lookup.
Qed.

(** X6.  The order in which Go visits a map decides the order of the exporter
    calls of a tick and nothing else: under any two visiting orders a tick
    makes the same calls, each as many times, and the merged data of a
    ConfigMap is the same map. *)
Theorem X6_visiting_order_permutes_calls (Match : MatchFn)
    (range range' : RangeFn) :
  RangeContract range → RangeContract range' →
  (∀ St (p : PeriodicSecretChecker.t St) client w,
     calls (PeriodicSecretChecker.tick Match range p client w).2
     ≡ₚ calls (PeriodicSecretChecker.tick Match range' p client w).2)
  ∧ (∀ configMap,
       PeriodicConfigMapChecker.combinedMap range configMap
       = PeriodicConfigMapChecker.combinedMap range' configMap)
  ∧ (∀ St (p : PeriodicConfigMapChecker.t St) client w,
       calls (PeriodicConfigMapChecker.tick Match range p client w).2
       ≡ₚ calls (PeriodicConfigMapChecker.tick Match range' p client w).2).
Proof.
  intros HR HR'. split; [|split].
  - intros St p client w. rewrite !secret_tick_emits.
    apply Permutation_app_head, Permutation_skip.
    apply list_bind_Permutation_ext. intros secret.
    unfold secretExports. destruct (_ && _); [|done].
    by rewrite (HR _ (Secret.Data secret)), (HR' _ (Secret.Data secret)).
  - intros configMap. by apply combinedMap_any_order.
  - intros St p client w. rewrite !configMap_tick_emits.
    apply Permutation_app_head, Permutation_skip.
    apply list_bind_Permutation_ext. intros configMap.
    unfold configMapExports. destruct (annotationFilter _ _); [|done].
    rewrite (combinedMap_any_order range range') by done.
    by rewrite (HR _ (PeriodicConfigMapChecker.combinedMap range' configMap)),
               (HR' _ (PeriodicConfigMapChecker.combinedMap range' configMap)).
Qed.

Lemma Example2_rangeReversed_contract : RangeContract Example2.rangeReversed.
Proof. intros A m. apply reverse_Permutation. Qed.

Lemma X6_witness :
  PeriodicConfigMapChecker.combinedMap Example.range Example.bundle
  = PeriodicConfigMapChecker.combinedMap Example2.rangeReversed Example.bundle.
Proof.
  apply (proj1 (proj2 (X6_visiting_order_permutes_calls Example.Match
                         Example.range Example2.rangeReversed
                         Example_range_contract
                         Example2_rangeReversed_contract))).
Defined.

(** *** One call per entry *)

Section DistinctKeys.
Context {Call : Type} (key : Call -> string).

Lemma bind_keys_NoDup (f : string * bytes -> list Call)
    (l : list (string * bytes)) :
  (∀ entry call, call ∈ f entry → key call = entry.1) →
  (∀ entry, length (f entry) ≤ 1) →
  NoDup l.*1 →
  NoDup (key <$> (l ≫= f)) ∧ (∀ k, k ∈ key <$> (l ≫= f) → k ∈ l.*1)
  ∧ length (l ≫= f) ≤ length l.
Proof.
  intros Hkey Hone. induction l as [|entry l IH]; intros Hnd.
  - split; [constructor|]. split; [by intros k ?%elem_of_nil | done].
  - rewrite fmap_cons in Hnd. apply NoDup_cons in Hnd as [Hfresh Hnd].
    destruct (IH Hnd) as (IH1 & IH2 & IH3).
    rewrite bind_cons, fmap_app, length_app.
    pose proof (Hone entry) as Hlen. pose proof (Hkey entry) as Hk.
    destruct (f entry) as [|call [|call' rest]]; simpl in Hlen; [| |lia].
    + simpl. split; [done|]. split; [|lia].
      intros k Hin. apply elem_of_cons. right. by apply IH2.
    + simpl. rewrite (Hk call (list_elem_of_here _ _)).
      split; [|split; [|lia]].
      * apply NoDup_cons. split; [|done]. intros Hin. by apply IH2 in Hin.
      * intros k Hin. apply elem_of_cons.
        apply elem_of_cons in Hin as [->|Hin]; [by left | right; by apply IH2].
Qed.

End DistinctKeys.

(** X7.  While the entries of one resource are visited, [ExportMetrics] is
    called at most once per entry: the calls made carry pairwise distinct key
    names, each the name of an entry of the resource, and there are no more
    calls than entries. *)
Theorem X7_one_export_per_entry (Match : MatchFn) (range : RangeFn) :
  RangeContract range →
  (∀ St (p : PeriodicSecretChecker.t St) client secret w,
     ∃ made,
       calls (PeriodicSecretChecker.secretBody Match range p client secret w).2
       = calls w ++ made
       ∧ NoDup (secretCallKey <$> made)
       ∧ (∀ call, call ∈ made →
                  is_Some (Secret.Data secret !! secretCallKey call))
       ∧ length made ≤ size (Secret.Data secret))
  ∧
  (∀ St (p : PeriodicConfigMapChecker.t St) client configMap w,
     ∃ made,
       calls (PeriodicConfigMapChecker.configMapBody Match range p client
                configMap w).2
       = calls w ++ made
       ∧ NoDup (configMapCallKey <$> made)
       ∧ (∀ call, call ∈ made →
                  is_Some (ConfigMap.Data configMap !! configMapCallKey call)
                  ∨ is_Some (ConfigMap.BinaryData configMap
                               !! configMapCallKey call))
       ∧ length made ≤ size (ConfigMap.Data configMap)
                       + size (ConfigMap.BinaryData configMap)).
Proof.
  intros HR. split.
  - intros St p client secret w.
    exists (secretExports Match range p client secret).
    split; [apply secret_body_emits|]. unfold secretExports.
    destruct (_ && _).
    2:{ split; [constructor|]. split; [by intros c ?%elem_of_nil | simpl; lia]. }
    destruct (bind_keys_NoDup secretCallKey
                (secretEntryExports Match p client secret)
                (range _ (Secret.Data secret))) as (H1 & H2 & H3).
    + intros entry call. unfold secretEntryExports.
      destruct (_ && _); [|by intros ?%elem_of_nil].
      by intros ->%list_elem_of_singleton.
    + intros entry. unfold secretEntryExports. destruct (_ && _); simpl; lia.
    + by apply range_NoDup_fst.
    + split; [exact H1|]. split.
      * intros call Hin.
        assert (secretCallKey call ∈ (range _ (Secret.Data secret)).*1) as Hk.
        { apply H2. by apply list_elem_of_fmap_2. }
        apply list_elem_of_fmap in Hk as ([k v] & -> & Hkv).
        apply (range_elem_of range) in Hkv; [|done]. by eexists.
      * etrans; [exact H3|].
        by rewrite (HR _ (Secret.Data secret)), length_map_to_list.
  - intros St p client configMap w.
    exists (configMapExports Match range p client configMap).
    split; [apply configMap_body_emits|]. unfold configMapExports.
    destruct (annotationFilter _ _).
    2:{ split; [constructor|]. split; [by intros c ?%elem_of_nil | simpl; lia]. }
    destruct (bind_keys_NoDup configMapCallKey
                (configMapEntryExports Match p client configMap)
                (range _ (PeriodicConfigMapChecker.combinedMap range configMap)))
      as (H1 & H2 & H3).
    + intros entry call. unfold configMapEntryExports.
      destruct (_ && _); [|by intros ?%elem_of_nil].
      by intros ->%list_elem_of_singleton.
    + intros entry. unfold configMapEntryExports.
      destruct (_ && _); simpl; lia.
    + by apply range_NoDup_fst.
    + split; [exact H1|]. split.
      * intros call Hin.
        assert (configMapCallKey call
                ∈ (range _ (PeriodicConfigMapChecker.combinedMap range
                              configMap)).*1) as Hk.
        { apply H2. by apply list_elem_of_fmap_2. }
        apply list_elem_of_fmap in Hk as ([k v] & -> & Hkv).
        apply (range_elem_of range) in Hkv; [|done].
        rewrite combinedMap_lookup in Hkv by done. simpl.
        destruct (ConfigMap.BinaryData configMap !! k); [right; by eexists|].
        destruct (ConfigMap.Data configMap !! k); [left; by eexists | done].
      * etrans; [exact H3|].
        rewrite (HR _ (PeriodicConfigMapChecker.combinedMap range configMap)),
          length_map_to_list.
        rewrite <- !size_dom.
        assert (dom (PeriodicConfigMapChecker.combinedMap range configMap)
                = dom (ConfigMap.Data configMap)
                  ∪ dom (ConfigMap.BinaryData configMap)) as ->.
        { apply set_eq. intros key.
          rewrite elem_of_union, !elem_of_dom, combinedMap_lookup by done.
          destruct (ConfigMap.BinaryData configMap !! key) as [b|],
                   (ConfigMap.Data configMap !! key) as [t|]; simpl;
            split; try (intros [?|?]); try done; try (by eexists); eauto. }
        rewrite size_union_alt.
        assert (size (dom (ConfigMap.BinaryData configMap)
                      ∖ dom (ConfigMap.Data configMap))
                ≤ size (dom (ConfigMap.BinaryData configMap))) as Hle.
        { apply subseteq_size. intros x Hx.
          by apply elem_of_difference in Hx as [? _]. }
        lia.
Qed.

(** [tls-1] has two entries; at most two calls are made for it. *)
Lemma X7_witness :
  RangeContract Example.range ∧
  ∃ made,
    calls (PeriodicSecretChecker.secretBody Example.Match Example.range
             Example.secretChecker Example.client Example.tls1
             Example.world0).2
    = calls (Example.world0 (Call:=PeriodicSecretChecker.Call)) ++ made
    ∧ NoDup (secretCallKey <$> made)
    ∧ (∀ call, call ∈ made →
               is_Some (Secret.Data Example.tls1 !! secretCallKey call))
    ∧ length made ≤ size (Secret.Data Example.tls1).
Proof.
  split; [apply Example_range_contract|].
  apply (proj1 (X7_one_export_per_entry Example.Match Example.range
                  Example_range_contract)).
Defined.

(** *** Entry names without an extension *)

Lemma firstNonEmpty_twice (s : string) : firstNonEmpty [s; s] = s.
Proof. simpl. by destruct (String.eqb_spec s ""). Qed.

(** X8.  For an entry whose name has no dot, the key built from the name
    without its extension is the key built from the full name, so the last two
    password stages look up one and the same key: the ConfigMap password is
    the value of that single lookup, and the Secret password is the Secret's
    own [password] entry or else that value. *)
Theorem X8_no_extension_one_sibling_key (client : Client) (name : string) :
  dotless name →
  strings_TrimSuffix name (path_Ext name) +:+ ".password"
  = name +:+ ".password"
  ∧ (∀ configMap,
       PeriodicConfigMapChecker.resolvePassword client configMap name
       = stage client (ConfigMap.Namespace configMap)
               (ConfigMap.Name configMap +:+ "-password") (name +:+ ".password"))
  ∧ (∀ secret,
       PeriodicSecretChecker.resolvePassword client secret name
       = firstNonEmpty
           [stage client (Secret.Namespace secret) (Secret.Name secret)
                  "password";
            stage client (Secret.Namespace secret)
                  (Secret.Name secret +:+ "-password") (name +:+ ".password")]).
Proof.
  intros Hname. pose proof (trim_no_ext name Hname) as Htrim.
  split; [by rewrite Htrim|]. split.
  - intros configMap.
    rewrite configMap_resolvePassword_stages, Htrim.
    apply firstNonEmpty_twice.
  - intros secret. rewrite secret_resolvePassword_stages, Htrim.
    cbn [firstNonEmpty]. destruct (String.eqb _ ""); [|done].
    by destruct (String.eqb_spec
                   (stage client (Secret.Namespace secret)
                      (Secret.Name secret +:+ "-password")
                      (name +:+ ".password")) "").
Qed.

Lemma dotless_keystore : dotless "keystore".
Proof.
  intros i c.
  do 8 (destruct i as [|i]; [by intros [= <-]|]). by intros [=].
Qed.

Lemma X8_witness :
  dotless "keystore"
  ∧ strings_TrimSuffix "keystore" (path_Ext "keystore") +:+ ".password"
    = "keystore" +:+ ".password".
Proof.
  split; [exact dotless_keystore|].
  apply (X8_no_extension_one_sibling_key Example.client "keystore"
           dotless_keystore).
Defined.

(** *** Checkers as the factories build them *)

Lemma bind_all_nil {A B} (f : A -> list B) (l : list A) :
  (∀ x, f x = []) → l ≫= f = [].
Proof.
  intros Hf. induction l as [|x l IH]; [done|].
  by rewrite bind_cons, Hf, IH.
Qed.

(** X9.  A checker built by its factory with no namespace lists nothing: each
    tick only resets the metrics, makes no export and counts no error.  Built
    with an empty include-glob list, it may list and count errors, but each
    tick still makes no export, whatever the cluster holds. *)
Theorem X9_nothing_to_scan_only_resets {St} (Match : MatchFn) (range : RangeFn)
    (period : Z)
    (labelSelectors includeGlobs excludeGlobs annotationSelectors namespaces
       : list string)
    (kubeconfigPath : string) (includeSecretsTypes : list string)
    (secretExporter : PeriodicSecretChecker.Exporter St)
    (configMapExporter : PeriodicConfigMapChecker.Exporter St)
    (client : Client) :
  (∀ w,
     let w' :=
       (PeriodicSecretChecker.tick Match range
          (NewSecretChecker period labelSelectors includeGlobs excludeGlobs
             annotationSelectors [] kubeconfigPath secretExporter
             includeSecretsTypes) client w).2 in
     calls w' = calls w ++ [PeriodicSecretChecker.ResetMetricsCall]
     ∧ ErrorTotal w' = ErrorTotal w
     ∧ sink w' = PeriodicSecretChecker.ResetMetrics secretExporter (sink w))
  ∧ (∀ w,
       calls (PeriodicSecretChecker.tick Match range
                (NewSecretChecker period labelSelectors [] excludeGlobs
                   annotationSelectors namespaces kubeconfigPath secretExporter
                   includeSecretsTypes) client w).2
       = calls w ++ [PeriodicSecretChecker.ResetMetricsCall])
  ∧ (∀ w,
       let w' :=
         (PeriodicConfigMapChecker.tick Match range
            (NewConfigMapChecker period labelSelectors includeGlobs excludeGlobs
               annotationSelectors [] kubeconfigPath configMapExporter)
            client w).2 in
       calls w' = calls w ++ [PeriodicConfigMapChecker.ResetMetricsCall]
       ∧ ErrorTotal w' = ErrorTotal w
       ∧ sink w'
         = PeriodicConfigMapChecker.ResetMetrics configMapExporter (sink w))
  ∧ (∀ w,
       calls (PeriodicConfigMapChecker.tick Match range
                (NewConfigMapChecker period labelSelectors [] excludeGlobs
                   annotationSelectors namespaces kubeconfigPath
                   configMapExporter) client w).2
       = calls w ++ [PeriodicConfigMapChecker.ResetMetricsCall]).
Proof.
  split; [|split; [|split]].
  - intros w. rewrite secret_tick_run.
    unfold candidates, failedLists, combinations. simpl.
    by destruct (0 <? length labelSelectors).
  - intros w. rewrite secret_tick_emits. f_equal. f_equal.
    apply bind_all_nil. intros secret. unfold secretExports.
    destruct (_ && _); [|done]. by apply bind_all_nil.
  - intros w. rewrite configMap_tick_run.
    unfold candidates, failedLists, combinations. simpl.
    by destruct (0 <? length labelSelectors).
  - intros w. rewrite configMap_tick_emits. f_equal. f_equal.
    apply bind_all_nil. intros configMap. unfold configMapExports.
    destruct (annotationFilter _ _); [|done]. by apply bind_all_nil.
Qed.

(** *** Series of the exporter *)

Section ExporterSeries.
Import ConfigMapExporter.
Implicit Types decoder : bytes -> string -> list certMetric + error.
Implicit Types m : Metrics (gmap (list string) float64).

Lemma lastValue_is_Some key val lvs mc old :
  is_Some (lastValue key val lvs mc old) ↔ is_Some old ∨ lvs ∈ key <$> mc.
Proof.
  revert old. induction mc as [|c mc IH]; intros old; cbn [lastValue].
  - split; [by left | intros [?|Hin]; [done | by apply elem_of_nil in Hin]].
  - rewrite IH, fmap_cons, elem_of_cons. destruct (decide (key c = lvs)).
    + split; [intros _; right; by left | intros _; left; by eexists].
    + split; [intros [?|?]; [by left | right; by right]|].
      intros [?|[?|?]]; [by left | done | by right].
Qed.

Lemma exportWith_expiry decoder a m lvs :
  is_Some (ConfigMapExpirySeconds (exportWith decoder a m) !! lvs) ↔
  is_Some (ConfigMapExpirySeconds m !! lvs) ∨ lvs ∈ exportKeys decoder a.
Proof.
  unfold exportWith, exportKeys, ExportMetrics.
  destruct (decoder (argData a) (argPassword a)) as [mc|e]; simpl.
  - by rewrite foldl_exportOne_expiry, lastValue_is_Some.
  - split; [by left | intros [?|Hin]; [done | by apply elem_of_nil in Hin]].
Qed.

Lemma exportWith_notAfter decoder a m lvs :
  is_Some (ConfigMapNotAfterTimestamp (exportWith decoder a m) !! lvs) ↔
  is_Some (ConfigMapNotAfterTimestamp m !! lvs) ∨ lvs ∈ exportKeys decoder a.
Proof.
  unfold exportWith, exportKeys, ExportMetrics.
  destruct (decoder (argData a) (argPassword a)) as [mc|e]; simpl.
  - by rewrite foldl_exportOne_notAfter, lastValue_is_Some.
  - split; [by left | intros [?|Hin]; [done | by apply elem_of_nil in Hin]].
Qed.

Lemma exportAll_snoc decoder l a m :
  exportAll decoder (l ++ [a]) m = exportWith decoder a (exportAll decoder l m).
Proof. unfold exportAll. by rewrite foldl_app. Qed.

Lemma exportAll_expiry decoder l m lvs :
  is_Some (ConfigMapExpirySeconds (exportAll decoder l m) !! lvs) ↔
  is_Some (ConfigMapExpirySeconds m !! lvs)
  ∨ ∃ a, a ∈ l ∧ lvs ∈ exportKeys decoder a.
Proof.
  induction l as [|a l IH] using rev_ind.
  - split; [by left | intros [?|(a & Hin & _)]; [done|]].
    by apply elem_of_nil in Hin.
  - rewrite exportAll_snoc, exportWith_expiry, IH. split.
    + intros [[?|(b & Hb & Hk)]|Hk]; [by left | |].
      * right. exists b. split; [apply elem_of_app; by left | done].
      * right. exists a. split; [apply elem_of_app; right; by left | done].
    + intros [?|(b & Hb & Hk)]; [left; by left|].
      apply elem_of_app in Hb as [Hb|Hb].
      * left. right. by exists b.
      * apply list_elem_of_singleton in Hb as ->. by right.
Qed.

Lemma exportAll_notAfter decoder l m lvs :
  is_Some (ConfigMapNotAfterTimestamp (exportAll decoder l m) !! lvs) ↔
  is_Some (ConfigMapNotAfterTimestamp m !! lvs)
  ∨ ∃ a, a ∈ l ∧ lvs ∈ exportKeys decoder a.
Proof.
  induction l as [|a l IH] using rev_ind.
  - split; [by left | intros [?|(a & Hin & _)]; [done|]].
    by apply elem_of_nil in Hin.
  - rewrite exportAll_snoc, exportWith_notAfter, IH. split.
    + intros [[?|(b & Hb & Hk)]|Hk]; [by left | |].
      * right. exists b. split; [apply elem_of_app; by left | done].
      * right. exists a. split; [apply elem_of_app; right; by left | done].
    + intros [?|(b & Hb & Hk)]; [left; by left|].
      apply elem_of_app in Hb as [Hb|Hb].
      * left. right. by exists b.
      * apply list_elem_of_singleton in Hb as ->. by right.
Qed.

End ExporterSeries.

(** X10.  [ExportMetrics] never removes a series, and it writes the same label
    tuples to both gauge vectors: if the two vectors hold the same label
    tuples before a call they do so after it, as they do after
    [ResetMetrics]. *)
Theorem X10_export_keeps_vectors_aligned
    (decoder : bytes -> string -> list ConfigMapExporter.certMetric + error)
    (data : bytes) (keyName name ns password : string)
    (labels : gmap string string)
    (m : ConfigMapExporter.Metrics (gmap (list string) float64)) :
  let m' := (ConfigMapExporter.ExportMetrics decoder data keyName name ns
               password labels m).2 in
  dom (ConfigMapExporter.ConfigMapExpirySeconds m)
    ⊆ dom (ConfigMapExporter.ConfigMapExpirySeconds m')
  ∧ dom (ConfigMapExporter.ConfigMapNotAfterTimestamp m)
      ⊆ dom (ConfigMapExporter.ConfigMapNotAfterTimestamp m')
  ∧ (dom (ConfigMapExporter.ConfigMapExpirySeconds m)
       = dom (ConfigMapExporter.ConfigMapNotAfterTimestamp m) →
     dom (ConfigMapExporter.ConfigMapExpirySeconds m')
       = dom (ConfigMapExporter.ConfigMapNotAfterTimestamp m'))
  ∧ dom (ConfigMapExporter.ConfigMapExpirySeconds
           (ConfigMapExporter.ResetMetrics m))
    = dom (ConfigMapExporter.ConfigMapNotAfterTimestamp
             (ConfigMapExporter.ResetMetrics m)).
Proof.
  pose (a := {| argData := data; argKeyName := keyName; argName := name;
                argNamespace := ns; argPassword := password;
                argLabels := labels |}).
  change (ConfigMapExporter.ExportMetrics decoder data keyName name ns
            password labels m).2 with (exportWith decoder a m).
  cbv zeta. split; [|split; [|split]].
  - intros lvs. rewrite !elem_of_dom, exportWith_expiry. by left.
  - intros lvs. rewrite !elem_of_dom, exportWith_notAfter. by left.
  - intros Hdom. apply set_eq. intros lvs.
    rewrite !elem_of_dom, exportWith_expiry, exportWith_notAfter.
    by rewrite <- !elem_of_dom, Hdom.
  - done.
Qed.

Lemma X10_witness :
  dom (ConfigMapExporter.ConfigMapExpirySeconds
         (ConfigMapExporter.ExportMetrics Example.decoder Example.certBytes
            "tls.crt" "tls-1" "default" "" ∅ Example.staleMetrics).2)
  = dom (ConfigMapExporter.ConfigMapNotAfterTimestamp
           (ConfigMapExporter.ExportMetrics Example.decoder Example.certBytes
              "tls.crt" "tls-1" "default" "" ∅ Example.staleMetrics).2).
Proof.
  apply (proj1 (proj2 (proj2 (X10_export_keeps_vectors_aligned Example.decoder
                                Example.certBytes "tls.crt" "tls-1" "default"
                                "" ∅ Example.staleMetrics)))).
  reflexivity.
Defined.

(** X11.  After [ResetMetrics] and any sequence of [ExportMetrics] calls, the
    series a gauge vector holds are exactly those of the certificates decoded
    by these calls: nothing published before the reset is left, and a call
    whose data does not decode leaves no series. *)
Theorem X11_series_after_reset
    (decoder : bytes -> string -> list ConfigMapExporter.certMetric + error)
    (l : list ExportArgs)
    (m : ConfigMapExporter.Metrics (gmap (list string) float64))
    (lvs : list string) :
  (lvs ∈ dom (ConfigMapExporter.ConfigMapExpirySeconds
                (exportAll decoder l (ConfigMapExporter.ResetMetrics m)))
   ↔ ∃ a metricCollection metric,
       a ∈ l
       ∧ decoder (argData a) (argPassword a) = inl metricCollection
       ∧ metric ∈ metricCollection
       ∧ lvs = [argKeyName a; ConfigMapExporter.issuer metric;
                ConfigMapExporter.cn metric; argName a; argNamespace a;
                default "" (argLabels a !! "serviceline")])
  ∧ (lvs ∈ dom (ConfigMapExporter.ConfigMapNotAfterTimestamp
                  (exportAll decoder l (ConfigMapExporter.ResetMetrics m)))
     ↔ lvs ∈ dom (ConfigMapExporter.ConfigMapExpirySeconds
                    (exportAll decoder l (ConfigMapExporter.ResetMetrics m)))).
Proof.
  rewrite !elem_of_dom, exportAll_expiry, exportAll_notAfter. simpl.
  rewrite !lookup_empty. split; [|done]. split.
  - intros [[? [=]]|(a & Ha & Hk)]. unfold exportKeys in Hk.
    destruct (decoder (argData a) (argPassword a)) as [mc|e] eqn:E;
      [|by apply elem_of_nil in Hk].
    apply list_elem_of_fmap in Hk as (c & -> & Hc). by exists a, mc, c.
  - intros (a & mc & c & Ha & Hdec & Hc & ->). right. exists a.
    split; [done|]. unfold exportKeys. rewrite Hdec.
    apply list_elem_of_fmap. by exists c.
Qed.

(** *** Exports in another order *)

Section ExportOrder.
Import ConfigMapExporter.
Implicit Types decoder : bytes -> string -> list certMetric + error.
Implicit Types m : Metrics (gmap (list string) float64).

Lemma exportKeys_target decoder a lvs :
  lvs ∈ exportKeys decoder a →
  lvs !! 0 = Some (argKeyName a) ∧ lvs !! 3 = Some (argName a)
  ∧ lvs !! 4 = Some (argNamespace a).
Proof.
  unfold exportKeys.
  destruct (decoder (argData a) (argPassword a)) as [mc|e];
    [|by intros ?%elem_of_nil].
  by intros (c & -> & _)%list_elem_of_fmap.
Qed.

Lemma exportKeys_disjoint decoder a b lvs :
  exportTarget a ≠ exportTarget b →
  lvs ∈ exportKeys decoder a → lvs ∉ exportKeys decoder b.
Proof.
  intros Hne Ha Hb. apply exportKeys_target in Ha as (Ha0 & Ha3 & Ha4).
  apply exportKeys_target in Hb as (Hb0 & Hb3 & Hb4).
  apply Hne. unfold exportTarget. congruence.
Qed.

Lemma exportWith_other_expiry decoder a m lvs :
  lvs ∉ exportKeys decoder a →
  ConfigMapExpirySeconds (exportWith decoder a m) !! lvs
  = ConfigMapExpirySeconds m !! lvs.
Proof.
  unfold exportWith, exportKeys, ExportMetrics.
  destruct (decoder (argData a) (argPassword a)) as [mc|e]; [|done].
  intros Hnot. cbn [snd]. rewrite foldl_exportOne_expiry.
  apply lastValue_other. intros c Hc Hk. apply Hnot.
  apply list_elem_of_fmap. by exists c.
Qed.

Lemma exportWith_other_notAfter decoder a m lvs :
  lvs ∉ exportKeys decoder a →
  ConfigMapNotAfterTimestamp (exportWith decoder a m) !! lvs
  = ConfigMapNotAfterTimestamp m !! lvs.
Proof.
  unfold exportWith, exportKeys, ExportMetrics.
  destruct (decoder (argData a) (argPassword a)) as [mc|e]; [|done].
  intros Hnot. cbn [snd]. rewrite foldl_exportOne_notAfter.
  apply lastValue_other. intros c Hc Hk. apply Hnot.
  apply list_elem_of_fmap. by exists c.
Qed.

Lemma exportWith_own_expiry decoder a m m' lvs :
  lvs ∈ exportKeys decoder a →
  ConfigMapExpirySeconds (exportWith decoder a m) !! lvs
  = ConfigMapExpirySeconds (exportWith decoder a m') !! lvs.
Proof.
  intros Hin.
  destruct (Overwrites_exportWith decoder a lvs) as [[Hk|[v Hs]] _];
    [|by rewrite !Hs].
  exfalso. revert Hin. unfold exportKeys.
  pose proof (Hk (mkMetrics ∅ ∅)) as Hempty. revert Hempty.
  unfold exportWith, ExportMetrics.
  destruct (decoder (argData a) (argPassword a)) as [mc|e];
    [|by intros _ ?%elem_of_nil].
  cbn [snd]. rewrite foldl_exportOne_expiry. simpl. rewrite lookup_empty.
  intros Hnone (c & -> & Hc)%list_elem_of_fmap.
  destruct (lastValue_elem
              (seriesKey (argKeyName a) (argName a) (argNamespace a)
                 (default "" (argLabels a !! "serviceline")))
              durationUntilExpiry mc None c Hc) as [v Hv].
  congruence.
Qed.

Lemma exportWith_own_notAfter decoder a m m' lvs :
  lvs ∈ exportKeys decoder a →
  ConfigMapNotAfterTimestamp (exportWith decoder a m) !! lvs
  = ConfigMapNotAfterTimestamp (exportWith decoder a m') !! lvs.
Proof.
  intros Hin.
  destruct (Overwrites_exportWith decoder a lvs) as [_ [Hk|[v Hs]]];
    [|by rewrite !Hs].
  exfalso. revert Hin. unfold exportKeys.
  pose proof (Hk (mkMetrics ∅ ∅)) as Hempty. revert Hempty.
  unfold exportWith, ExportMetrics.
  destruct (decoder (argData a) (argPassword a)) as [mc|e];
    [|by intros _ ?%elem_of_nil].
  cbn [snd]. rewrite foldl_exportOne_notAfter. simpl. rewrite lookup_empty.
  intros Hnone (c & -> & Hc)%list_elem_of_fmap.
  destruct (lastValue_elem
              (seriesKey (argKeyName a) (argName a) (argNamespace a)
                 (default "" (argLabels a !! "serviceline")))
              notAfter mc None c Hc) as [v Hv].
  congruence.
Qed.

Lemma exportWith_comm decoder a b m :
  exportTarget a ≠ exportTarget b →
  exportWith decoder a (exportWith decoder b m)
  = exportWith decoder b (exportWith decoder a m).
Proof.
  intros Hne. apply metrics_eq; intros lvs.
  - destruct (decide (lvs ∈ exportKeys decoder a)) as [Ha|Ha].
    + rewrite (exportWith_other_expiry decoder b)
        by (by apply (exportKeys_disjoint decoder a b)).
      by apply exportWith_own_expiry.
    + rewrite (exportWith_other_expiry decoder a) by done.
      destruct (decide (lvs ∈ exportKeys decoder b)) as [Hb|Hb].
      * by apply exportWith_own_expiry.
      * by rewrite !exportWith_other_expiry.
  - destruct (decide (lvs ∈ exportKeys decoder a)) as [Ha|Ha].
    + rewrite (exportWith_other_notAfter decoder b)
        by (by apply (exportKeys_disjoint decoder a b)).
      by apply exportWith_own_notAfter.
    + rewrite (exportWith_other_notAfter decoder a) by done.
      destruct (decide (lvs ∈ exportKeys decoder b)) as [Hb|Hb].
      * by apply exportWith_own_notAfter.
      * by rewrite !exportWith_other_notAfter.
Qed.

End ExportOrder.

(** X12.  Exports that concern different entries - that differ in key name,
    resource name or namespace - write different series, so they can be made
    in any order: a sequence of exports of pairwise different entries leaves
    the same metrics as any rearrangement of it. *)
Theorem X12_exports_of_distinct_entries_commute
    (decoder : bytes -> string -> list ConfigMapExporter.certMetric + error)
    (l l' : list ExportArgs)
    (m : ConfigMapExporter.Metrics (gmap (list string) float64)) :
  NoDup (exportTarget <$> l) → l ≡ₚ l' →
  exportAll decoder l m = exportAll decoder l' m.
Proof.
  intros Hnd Hp. revert m Hnd. unfold exportAll.
  induction Hp as [|a l l' Hp IH|a b l|l1 l2 l3 Hp1 IH1 Hp2 IH2]; intros m Hnd.
  - done.
  - rewrite fmap_cons in Hnd. apply NoDup_cons in Hnd as [_ Hnd].
    simpl. by apply IH.
  - rewrite !fmap_cons in Hnd. apply NoDup_cons in Hnd as [Hab _].
    simpl. f_equal. apply exportWith_comm. intros Heq. apply Hab.
    rewrite Heq. by left.
  - rewrite IH1 by done. apply IH2. by rewrite <- Hp1.
Qed.

Lemma X12_witness :
  exportAll Example.decoder [Example.exportTls1; Example.exportBundle]
    Example.staleMetrics
  = exportAll Example.decoder [Example.exportBundle; Example.exportTls1]
      Example.staleMetrics.
Proof.
  apply X12_exports_of_distinct_entries_commute.
  - apply NoDup_cons. split; [|apply NoDup_singleton].
    intros Hin. apply list_elem_of_singleton in Hin. discriminate Hin.
  - apply Permutation_swap.
Defined.
